(** * pylexibank.cldf: the incremental CLDF dataset assembly session

    A shallow embedding of [src/pylexibank/cldf.py] (class [Dataset]) and
    the properties of its record store, identifier generators, lexeme
    pipeline and finalisation step.

    Python objects are modelled as follows.
    - A keyword dictionary / record ([kw], [d]) is a finite map from field
      names to dynamically typed values: [gmap string value].
    - [self.objects] maps a table name to the list of its records;
      [self._obj_index] maps a table name to the set of identifiers seen.
    - Methods run in a state-and-exception monad: an exception leaves the
      mutations made before it in place, as in Python.
    - A text ([str]) is held as its UTF-8 encoding, one [ascii] per byte;
      the characters of the identifier pattern are single bytes below
      128, white space may take up to three bytes.

    Covered: [__init__], [__exit__], [lexeme_id], [cognate_id],
    [tokenize], [add_lexemes], [_add_object], [add_cognate],
    [add_language], [add_languages], [add_concept] and the table map
    passed to [write].  [add_concepts], [add_sources], [align_cognates]
    and [validate] work on objects of other packages and are left out. *)

From Stdlib Require Import ZArith String Ascii List Sorted.
From stdpp Require Import base decidable countable gmap strings list fin_maps pretty.

Local Open Scope string_scope.
Local Open Scope Z_scope.
Local Open Scope list_scope.

(** ** Dynamically typed values *)

(** The values that occur in keyword dictionaries: [None], text, integers
    and lists of text (the [Segments] of a lexeme). *)
Inductive value : Type :=
  | VNone
  | VStr (s : string)
  | VInt (z : Z)
  | VList (l : list string).

#[global] Instance value_eq_dec : EqDecision value.
Proof. solve_decision. Defined.

Definition value_encode (v : value) : unit + string + Z + list string :=
  match v with
  | VNone => inl (inl (inl tt))
  | VStr s => inl (inl (inr s))
  | VInt z => inl (inr z)
  | VList l => inr l
  end.

Definition value_decode (x : unit + string + Z + list string) : value :=
  match x with
  | inl (inl (inl _)) => VNone
  | inl (inl (inr s)) => VStr s
  | inl (inr z) => VInt z
  | inr l => VList l
  end.

#[global] Instance value_countable : Countable value.
Proof.
  refine (inj_countable' value_encode value_decode _).
  by intros [].
Defined.

Abbreviation record := (gmap string value).

(** Python truthiness ([if v:], [not v], [a or b]). *)
Definition truthy (v : value) : bool :=
  match v with
  | VNone => false
  | VStr s => negb (String.eqb s "")
  | VInt z => negb (z =? 0)
  | VList l => match l with [] => false | _ => true end
  end.

(** Only lists are unhashable among the modelled values. *)
Definition hashable (v : value) : bool :=
  match v with VList _ => false | _ => true end.

(** ['{0}'.format(v)].  The text of a list starts with a bracket, which
    is all that the identifier check depends on; its items are shown the
    way [repr] shows text without quotes, backslashes or unprintable
    characters, and only the wording of messages depends on them. *)
Definition py_quote (s : string) : string := "'" +:+ s +:+ "'".

Definition py_format (v : value) : string :=
  match v with
  | VNone => "None"
  | VStr s => s
  | VInt z => pretty z
  | VList l => "[" +:+ String.concat ", " (map py_quote l) +:+ "]"
  end.

(** ** Exceptions and the session monad *)

Inductive exn : Type :=
  | ValueError (msg : string)
  | KeyError
  | AttributeError
  | TypeError.

Inductive result (A : Type) : Type :=
  | Ok (a : A)
  | Raise (e : exn).
Arguments Ok {A} a.
Arguments Raise {A} e.

(** ** The identifier pattern

    [ID_PATTERN = re.compile('[A-Za-z0-9_\-]+$')], used through
    [ID_PATTERN.match(s)]: the match is anchored at the start of [s], the
    character class is repeated greedily, and [$] (without [re.MULTILINE])
    succeeds at the end of the text or just before a newline that is the
    last character of the text. *)

Definition in_range (lo hi : nat) (c : ascii) : bool :=
  (Nat.leb lo (nat_of_ascii c) && Nat.leb (nat_of_ascii c) hi)%bool.

Definition id_char (c : ascii) : bool :=
  (in_range 65 90 c || in_range 97 122 c || in_range 48 57 c
   || Ascii.eqb c "_" || Ascii.eqb c "-")%bool.

Definition newline : ascii := "010"%char.

(** [dollar s]: does [$] match in front of the remaining text [s]? *)
Definition dollar (s : string) : bool :=
  match s with
  | EmptyString => true
  | String c EmptyString => Ascii.eqb c newline
  | _ => false
  end.

(** [id_tail s]: [[A-Za-z0-9_\-]*$] against [s]. *)
Fixpoint id_tail (s : string) : bool :=
  match s with
  | String c s' => if id_char c then id_tail s' else dollar s
  | EmptyString => true
  end.

Definition ID_PATTERN_match (s : string) : bool :=
  match s with
  | String c s' => (id_char c && id_tail s')%bool
  | EmptyString => false
  end.

(** The language of the bare pattern [[A-Za-z0-9_-]+]: a non-empty text
    made of identifier characters only. *)
Fixpoint all_id_chars (s : string) : bool :=
  match s with
  | String c s' => (id_char c && all_id_chars s')%bool
  | EmptyString => true
  end.

Definition is_identifier (s : string) : bool :=
  match s with
  | EmptyString => false
  | _ => all_id_chars s
  end.

(** ** Record classes

    The [attr] classes ([dataset.lexeme_class] and so on) are defined
    outside this module.  A class is known here by its table name
    ([cls.__cldf_table__()]) and by what [attr.asdict] yields for the
    instance built from the keywords: a dictionary, or an exception from
    the constructor or a validator. *)
Record cldf_class : Type := {
  cldf_table : string;
  instantiate : record → result record
}.

(** ** The session state *)

Section Session.

(** [Analysis] is the per-language running state of the segment analyser
    and [Sound] the type of the objects of its phonetic model; both live
    in [pylexibank.transcription] and [pyclts]. *)
Context {Analysis Sound : Type}.

(** The state touched by the methods of [Dataset]: the two counters, the
    record store, the diagnostic state kept on [self.dataset], the debug
    messages sent to [self.dataset.log], what was printed, and the table
    maps handed to the writer. *)
Record Dataset : Type := mkDataset {
  _count : Z;
  _cognate_count : Z;
  objects : gmap string (list record);
  _obj_index : gmap string (gset value);
  tr_analyses : gmap value Analysis;
  tr_bad_words : list record;
  tr_invalid_words : list record;
  debug_log : list string;
  printed : list (value * record);
  written : list (gmap string (list record))
}.

Definition set_count (n : Z) (s : Dataset) : Dataset :=
  mkDataset n (_cognate_count s) (objects s) (_obj_index s) (tr_analyses s)
            (tr_bad_words s) (tr_invalid_words s) (debug_log s) (printed s) (written s).

Definition set_cognate_count (n : Z) (s : Dataset) : Dataset :=
  mkDataset (_count s) n (objects s) (_obj_index s) (tr_analyses s)
            (tr_bad_words s) (tr_invalid_words s) (debug_log s) (printed s) (written s).

Definition set_objects (o : gmap string (list record)) (s : Dataset) : Dataset :=
  mkDataset (_count s) (_cognate_count s) o (_obj_index s) (tr_analyses s)
            (tr_bad_words s) (tr_invalid_words s) (debug_log s) (printed s) (written s).

Definition set_obj_index (i : gmap string (gset value)) (s : Dataset) : Dataset :=
  mkDataset (_count s) (_cognate_count s) (objects s) i (tr_analyses s)
            (tr_bad_words s) (tr_invalid_words s) (debug_log s) (printed s) (written s).

Definition set_tr_analyses (a : gmap value Analysis) (s : Dataset) : Dataset :=
  mkDataset (_count s) (_cognate_count s) (objects s) (_obj_index s) a
            (tr_bad_words s) (tr_invalid_words s) (debug_log s) (printed s) (written s).

Definition set_tr_bad_words (l : list record) (s : Dataset) : Dataset :=
  mkDataset (_count s) (_cognate_count s) (objects s) (_obj_index s) (tr_analyses s)
            l (tr_invalid_words s) (debug_log s) (printed s) (written s).

Definition set_tr_invalid_words (l : list record) (s : Dataset) : Dataset :=
  mkDataset (_count s) (_cognate_count s) (objects s) (_obj_index s) (tr_analyses s)
            (tr_bad_words s) l (debug_log s) (printed s) (written s).

Definition set_debug_log (l : list string) (s : Dataset) : Dataset :=
  mkDataset (_count s) (_cognate_count s) (objects s) (_obj_index s) (tr_analyses s)
            (tr_bad_words s) (tr_invalid_words s) l (printed s) (written s).

Definition set_printed (l : list (value * record)) (s : Dataset) : Dataset :=
  mkDataset (_count s) (_cognate_count s) (objects s) (_obj_index s) (tr_analyses s)
            (tr_bad_words s) (tr_invalid_words s) (debug_log s) l (written s).

Definition set_written (l : list (gmap string (list record))) (s : Dataset) : Dataset :=
  mkDataset (_count s) (_cognate_count s) (objects s) (_obj_index s) (tr_analyses s)
            (tr_bad_words s) (tr_invalid_words s) (debug_log s) (printed s) l.

(** A method is a function from the state to the new state and either a
    returned value or a raised exception. *)
Definition M (A : Type) : Type := Dataset → Dataset * result A.

#[global] Instance M_ret : MRet M := λ A a s, (s, Ok a).

#[global] Instance M_bind : MBind M := λ A B f m s,
  match m s with
  | (s', Ok a) => f a s'
  | (s', Raise e) => (s', Raise e)
  end.

Definition raise {A} (e : exn) : M A := λ s, (s, Raise e).
Definition lift {A} (r : result A) : M A := λ s, (s, r).
Definition gets {A} (f : Dataset → A) : M A := λ s, (s, Ok (f s)).
Definition modify (f : Dataset → Dataset) : M unit := λ s, (f s, Ok tt).

(** [try: body except handler] for the exceptions the handler takes; it
    answers [None] for an exception it does not catch. *)
Definition try_except {A} (body : M A) (handler : exn → option (M A)) : M A :=
  λ s, match body s with
       | (s', Ok a) => (s', Ok a)
       | (s', Raise e) =>
           match handler e with
           | Some h => h s'
           | None => (s', Raise e)
           end
       end.

(** [m[k]] on a dictionary: [KeyError] when the key is missing. *)
Definition subscript {K V} `{Countable K} (m : gmap K V) (k : K) : result V :=
  match m !! k with
  | Some v => Ok v
  | None => Raise KeyError
  end.

(** ** The record store: [_add_object] *)

Definition id_keys : list string :=
  ["ID"; "Language_ID"; "Parameter_ID"; "Cognateset_ID"].

(** One round of the loop over [id_keys]: a present, non-[None] value is
    replaced by its text and checked against [ID_PATTERN]. *)
Definition stringify_identifier (t : string) (d : record) (key : string)
  : result record :=
  match d !! key with
  | Some v =>
      if decide (v = VNone) then Ok d
      else
        let s := py_format v in
        if ID_PATTERN_match s then Ok (<[key := VStr s]> d)
        else Raise (ValueError
               ("invalid CLDF identifier " +:+ t +:+ "-" +:+ key +:+ ": " +:+ s))
  | None => Ok d
  end.

Fixpoint stringify_identifiers (t : string) (d : record) (keys : list string)
  : result record :=
  match keys with
  | [] => Ok d
  | key :: keys' =>
      match stringify_identifier t d key with
      | Ok d' => stringify_identifiers t d' keys'
      | Raise e => Raise e
      end
  end.

(** [self._obj_index[t].add(i)] *)
Definition index_add (t : string) (i : value) : M unit :=
  idx ← (λ s, (s, subscript (_obj_index s) t));
  modify (λ s, set_obj_index (<[t := {[i]} ∪ idx]> (_obj_index s)) s).

(** [self.objects[t].append(d)] *)
Definition objects_append (t : string) (d : record) : M unit :=
  l ← (λ s, (s, subscript (objects s) t));
  modify (λ s, set_objects (<[t := l ++ [d]]> (objects s)) s).

Definition _add_object (cls : cldf_class) (kw : record) : M record :=
  d ← lift (instantiate cls kw);
  let t := cldf_table cls in
  d ← lift (stringify_identifiers t d id_keys);
  absent ← match d !! "ID" with
           | None => mret true
           | Some i =>
               idx ← (λ s, (s, subscript (_obj_index s) t));
               mret (bool_decide (i ∉ idx))
           end;
  if (absent : bool) then
    match d !! "ID" with
    | Some i => index_add t i
    | None => mret tt
    end;;
    objects_append t d;;
    mret d
  else mret d.

(** ** The identifier generators *)

Definition lexeme_id : M string :=
  modify (λ s, set_count (_count s + 1) s);;
  gets (λ s, py_format (VInt (_count s))).

Definition cognate_id : M Z :=
  modify (λ s, set_cognate_count (_cognate_count s + 1) s);;
  gets _cognate_count.

(** ** Finalisation: [__exit__] *)

(** [set(obj[fk] for obj in forms)] *)
Fixpoint collect_refs (fk : string) (forms : list record) (acc : gset value)
  : result (gset value) :=
  match forms with
  | [] => Ok acc
  | obj :: forms' =>
      match obj !! fk with
      | None => Raise KeyError
      | Some v =>
          if hashable v then collect_refs fk forms' ({[v]} ∪ acc)
          else Raise TypeError
      end
  end.

(** [[obj for obj in objs if obj['ID'] in refs]] *)
Fixpoint keep_referenced (refs : gset value) (objs : list record)
  : result (list record) :=
  match objs with
  | [] => Ok []
  | obj :: objs' =>
      match obj !! "ID" with
      | None => Raise KeyError
      | Some i =>
          if hashable i then
            match keep_referenced refs objs' with
            | Ok kept => Ok (if bool_decide (i ∈ refs) then obj :: kept else kept)
            | Raise e => Raise e
            end
          else Raise TypeError
      end
  end.

(** [self.objects.setdefault(table, [])] *)
Definition setdefault_table (table : string) : M unit :=
  modify (λ s, match objects s !! table with
               | Some _ => s
               | None => set_objects (<[table := []]> (objects s)) s
               end).

(** One round of the pruning loop. *)
Definition prune (fk table : string) : M unit :=
  forms ← (λ s, (s, subscript (objects s) "FormTable"));
  refs ← lift (collect_refs fk forms ∅);
  objs ← (λ s, (s, subscript (objects s) table));
  kept ← lift (keep_referenced refs objs);
  modify (λ s, set_objects (<[table := kept]> (objects s)) s).

(** [self.write] hands the table map to the [Wordlist] writer. *)
Definition write : M unit :=
  modify (λ s, set_written (written s ++ [objects s]) s).

(** The pruning part of [__exit__]: everything before [self.write]. *)
Definition finalize : M unit :=
  setdefault_table "FormTable";;
  setdefault_table "CognateTable";;
  setdefault_table "LanguageTable";;
  setdefault_table "ParameterTable";;
  prune "Parameter_ID" "ParameterTable";;
  prune "Language_ID" "LanguageTable".

Definition __exit__ : M unit :=
  finalize;;
  write.

(** ** The lexibank dataset behind the session

    [self.dataset]: the record classes and the collaborators that the
    methods call.  [analyze] is [pylexibank.transcription.analyze]: it may
    update the running analysis it is given and either returns (of its
    four results the code reads the sounds [_bipa] and the sound classes
    [_sc]) or raises.  [is_UnknownSound s] is
    [type(s) is pyclts.models.UnknownSound].  [cached_glosses] holds the
    entries of the catalog-ID-to-gloss lookup, see [cached_gloss]. *)
Record LexibankDataset : Type := {
  lexeme_class : cldf_class;
  language_class : cldf_class;
  concept_class : cldf_class;
  cognate_class : cldf_class;
  split_forms : record → value → list string;
  clean_form : record → string → string;
  tokenizer : option (record → string → list string);
  new_Analysis : Analysis;
  analyze : value → Analysis → Analysis * result (list Sound * list string);
  is_UnknownSound : Sound → bool;
  languages : list record;
  glottocode_by_iso : gmap value value;
  cached_glosses : gmap Z value
}.

(** [Dataset.__init__]: counters at zero, an empty table and an empty
    index for the table of each of the four classes. *)
Definition init_tables {V} (ds : LexibankDataset) (v : V) : gmap string V :=
  <[cldf_table (cognate_class ds) := v]>
    (<[cldf_table (concept_class ds) := v]>
      (<[cldf_table (language_class ds) := v]>
        (<[cldf_table (lexeme_class ds) := v]> ∅))).

Definition __init__ (ds : LexibankDataset) : Dataset :=
  mkDataset 0 0 (init_tables ds []) (init_tables ds ∅) ∅ [] [] [] [] [].

(** ** Text helpers *)

(** The characters of which [str.isspace] holds (Python 3), each in
    UTF-8: U+0009 to U+000D, U+001C to U+001F, U+0020, U+0085, U+00A0,
    U+1680, U+2000 to U+200A, U+2028, U+2029, U+202F, U+205F and U+3000. *)
Definition bytes (l : list nat) : string :=
  foldr (λ n s, String (ascii_of_nat n) s) EmptyString l.

Definition space_encodings : list string :=
  map bytes
    [ [9%nat]; [10%nat]; [11%nat]; [12%nat]; [13%nat];
      [28%nat]; [29%nat]; [30%nat]; [31%nat]; [32%nat];
      [194; 133]%nat; [194; 160]%nat;
      [225; 154; 128]%nat;
      [226; 128; 128]%nat; [226; 128; 129]%nat; [226; 128; 130]%nat;
      [226; 128; 131]%nat; [226; 128; 132]%nat; [226; 128; 133]%nat;
      [226; 128; 134]%nat; [226; 128; 135]%nat; [226; 128; 136]%nat;
      [226; 128; 137]%nat; [226; 128; 138]%nat;
      [226; 128; 168]%nat; [226; 128; 169]%nat; [226; 128; 175]%nat;
      [226; 129; 159]%nat;
      [227; 128; 128]%nat ].

(** [without_prefix p s]: the rest of [s] behind its prefix [p]. *)
Fixpoint without_prefix (p s : string) : option string :=
  match p with
  | EmptyString => Some s
  | String a p' =>
      match s with
      | String b s' => if Ascii.eqb a b then without_prefix p' s' else None
      | EmptyString => None
      end
  end.

(** The rest of [s] behind the first of the texts [ws] that it starts
    with. *)
Fixpoint drop_any (ws : list string) (s : string) : option string :=
  match ws with
  | [] => None
  | w :: ws' =>
      match without_prefix w s with
      | Some r => Some r
      | None => drop_any ws' s
      end
  end.

(** The rest of [s] behind a leading white-space character. *)
Definition drop_space (s : string) : option string := drop_any space_encodings s.

(** [s.lstrip()]: leading white-space characters go, one per step; a text
    has no more of them than it has bytes. *)
Fixpoint lstrip_go (fuel : nat) (s : string) : string :=
  match fuel with
  | O => s
  | S fuel' =>
      match drop_space s with
      | Some r => lstrip_go fuel' r
      | None => s
      end
  end.

Definition lstrip (s : string) : string := lstrip_go (String.length s) s.

(** [s.rstrip()]: the text up to the first position from which on all is
    white space. *)
Fixpoint rstrip (s : string) : string :=
  match s with
  | EmptyString => EmptyString
  | String a s' =>
      if String.eqb (lstrip s) "" then EmptyString else String a (rstrip s')
  end.

(** [s.strip()] *)
Definition strip (s : string) : string := rstrip (lstrip s).

Definition dquote : string := String "034"%char EmptyString.

(** [d.setdefault(k, v)] as far as the dictionary goes. *)
Definition setdefault (k : string) (v : value) (d : record) : record :=
  match d !! k with
  | Some _ => d
  | None => <[k := v]> d
  end.

(** [a or b] *)
Definition py_or (a b : value) : value := if truthy a then a else b.

(** [m.get(k)]: the key is hashed, a missing key gives [None]. *)
Definition dict_get (m : gmap value value) (k : value) : result value :=
  if hashable k then Ok (default VNone (m !! k)) else Raise TypeError.

(** [int(v)].  An integer is its own value, [None] and a list are
    refused with [TypeError]; what [int] makes of a text (digits of any
    script, underscores between digits, white space around them) is left
    to [int_text], which stands for the builtin and of which nothing is
    assumed. *)
Definition py_int (int_text : string → result Z) (v : value) : result Z :=
  match v with
  | VInt z => Ok z
  | VStr s => int_text s
  | VNone | VList _ => Raise TypeError
  end.

(** Modelled from the spec: [self.dataset.concepticon.cached_glosses[n]],
    the catalog-ID-to-gloss lookup.  The class of that object is not part
    of this module; the specification gives the lookup as a simple key
    lookup in which a missing key gives [None].  [glosses] holds its
    entries. *)
Definition cached_gloss (glosses : gmap Z value) (n : Z) : value :=
  default VNone (glosses !! n).

(** ** The lexeme pipeline: [add_lexemes] *)

Definition tokenize (ds : LexibankDataset) (item : record) (s : string) : value :=
  match tokenizer ds with
  | Some f => VList (f item s)
  | None => VNone
  end.

Definition log_debug (msg : string) : M unit :=
  modify (λ s, set_debug_log (debug_log s ++ [msg]) s).

(** [self.dataset.tr_analyses.setdefault(lang, Analysis())] *)
Definition tr_analyses_setdefault (ds : LexibankDataset) (lang : value) : M Analysis :=
  if hashable lang then
    λ s, match tr_analyses s !! lang with
         | Some a => (s, Ok a)
         | None => (set_tr_analyses (<[lang := new_Analysis ds]> (tr_analyses s)) s,
                    Ok (new_Analysis ds))
         end
  else raise TypeError.

(** The call [analyze(kw_['Segments'], analysis)]: the analysis object of
    the language keeps what the call did to it, also when the call
    raises. *)
Definition call_analyze (ds : LexibankDataset) (segments lang : value)
    (analysis : Analysis) : M (list Sound * list string) :=
  λ s, let '(analysis', r) := analyze ds segments analysis in
       (set_tr_analyses (<[lang := analysis']> (tr_analyses s)) s, r).

(** The body of [if kw_['Segments']:]. *)
Definition analyze_lexeme (ds : LexibankDataset) (kw_ : record) : M unit :=
  lang ← lift (subscript kw_ "Language_ID");
  analysis ← tr_analyses_setdefault ds lang;
  try_except
    (segments ← lift (subscript kw_ "Segments");
     r ← call_analyze ds segments lang analysis;
     let '(_bipa, _sc) := r in
     if (existsb (is_UnknownSound ds) _bipa || bool_decide ("?" ∈ _sc))%bool
     then modify (λ s, set_tr_bad_words (tr_bad_words s ++ [kw_]) s)
     else mret tt)
    (λ e, match e with
          | ValueError _ =>
              Some (modify (λ s, set_tr_invalid_words (tr_invalid_words s ++ [kw_]) s))
          | KeyError | AttributeError =>
              Some (form ← lift (subscript kw_ "Form");
                    modify (λ s, set_printed (printed s ++ [(form, kw_)]) s);;
                    raise e)
          | _ => None
          end).

(** The keyword dictionary [kw_] of a lexeme once [Segments], [ID] and
    [Form] are set; [n] is the value of the lexeme counter. *)
Definition lexeme_kw (ds : LexibankDataset) (kw : record) (form : string) (n : Z)
  : record :=
  <["Form" := VStr form]>
    (<["ID" := VStr (py_format (VInt n))]>
       (setdefault "Segments" (py_or (tokenize ds kw form) (VList [])) kw)).

(** The body of the inner [if form:], entered with the cleaned and
    stripped form: the record is built and stored, then its segments are
    analysed. *)
Definition add_clean_form (ds : LexibankDataset) (kw_ : record) (form : string)
  : M (list record) :=
  let kw_ := setdefault "Segments" (py_or (tokenize ds kw_ form) (VList [])) kw_ in
  i ← lexeme_id;
  let kw_ := <["Form" := VStr form]> (<["ID" := VStr i]> kw_) in
  d ← _add_object (lexeme_class ds) kw_;
  segments ← lift (subscript kw_ "Segments");
  (if truthy segments then analyze_lexeme ds kw_ else mret tt);;
  mret [d].

(** The body of the loop over the candidate forms; it answers the records
    it appended to [lexemes] (none or one). *)
Definition add_lexeme_form (ds : LexibankDataset) (kw : record) (form : string)
  : M (list record) :=
  let kw_ := kw in
  if String.eqb form "" then mret []
  else
    value ← lift (subscript kw_ "Value");
    (if decide (VStr form = value) then mret tt
     else log_debug ("iter_forms split: " +:+ dquote +:+ py_format value +:+ dquote
                     +:+ " -> " +:+ dquote +:+ form +:+ dquote));;
    let _form := clean_form ds kw_ form in
    (if String.eqb _form form then mret tt
     else log_debug ("clean_form changed: " +:+ dquote +:+ form +:+ dquote
                     +:+ " -> " +:+ dquote +:+ _form +:+ dquote));;
    let form := strip _form in
    if String.eqb form "" then mret []
    else add_clean_form ds kw_ form.

Fixpoint add_lexemes_loop (ds : LexibankDataset) (kw : record)
    (forms : list string) (lexemes : list record) : M (list record) :=
  match forms with
  | [] => mret lexemes
  | form :: forms' =>
      new ← add_lexeme_form ds kw form;
      add_lexemes_loop ds kw forms' (lexemes ++ new)
  end.

Definition add_lexemes (ds : LexibankDataset) (kw : record) : M (list record) :=
  value ← lift (subscript kw "Value");
  add_lexemes_loop ds kw (split_forms ds kw value) [].

(** ** The other assemblers *)

Definition add_cognate (ds : LexibankDataset) (lexeme : option record) (kw : record)
  : M record :=
  kw ← match lexeme with
       | Some lex =>
           if decide (lex = ∅) then mret kw
           else
             i ← lift (subscript lex "ID");
             let kw := setdefault "Form_ID" i kw in
             f ← lift (subscript lex "Form");
             mret (setdefault "Form" f kw)
       | None => mret kw
       end;
  n ← cognate_id;
  _add_object (cognate_class ds) (setdefault "ID" (VInt n) kw).

Definition add_language (ds : LexibankDataset) (kw : record) : M record :=
  _add_object (language_class ds) kw.

(** [kw.get(k)] on a keyword dictionary. *)
Definition kw_get (kw : record) (k : string) : value := default VNone (kw !! k).

(** The loop of [add_languages] over [self.dataset.languages].  The loop
    also leaves [Glottocode] and [ID] written in the dictionaries of that
    list; this model reads the list and keeps it as it is. *)
Fixpoint add_languages_loop (ds : LexibankDataset)
    (id_factory : record → result value) (kws : list record) (ids : gset value)
  : M (gset value) :=
  match kws with
  | [] => mret ids
  | kw :: kws' =>
      kw ← (if (negb (truthy (kw_get kw "Glottocode"))
                && truthy (kw_get kw "ISO639P3code"))%bool
            then
              iso ← lift (subscript kw "ISO639P3code");
              g ← lift (dict_get (glottocode_by_iso ds) iso);
              mret (<["Glottocode" := g]> kw)
            else mret kw);
      i ← lift (id_factory kw);
      let kw := <["ID" := i]> kw in
      (if hashable i then mret tt else raise TypeError);;
      add_language ds kw;;
      add_languages_loop ds id_factory kws' ({[i]} ∪ ids)
  end.

Definition add_languages (ds : LexibankDataset) (id_factory : record → result value)
  : M (gset value) :=
  add_languages_loop ds id_factory (languages ds) ∅.

(** [add_concept]; [int_text] is the builtin [int] on text, see
    [py_int]. *)
Definition add_concept (ds : LexibankDataset) (int_text : string → result Z)
    (kw : record) : M record :=
  kw ← (if truthy (kw_get kw "Concepticon_ID") then
          cid ← lift (subscript kw "Concepticon_ID");
          n ← lift (py_int int_text cid);
          let gloss := cached_gloss (cached_glosses ds) n in
          mret (setdefault "Concepticon_Gloss" gloss kw)
        else mret kw);
  _add_object (concept_class ds) kw.

End Session.

Definition nl : string := String newline EmptyString.

(** ** What stripping comes to *)

(** A text made of white-space characters only. *)
Inductive all_space : string → Prop :=
  | all_space_nil : all_space ""
  | all_space_cons w s :
      w ∈ space_encodings → all_space s → all_space (w +:+ s).

(** [f] is [s] without the white space at its two ends: white space in
    front of [f] and behind it, none at the start of [f] and none at its
    end. *)
Definition stripped_of (s f : string) : Prop :=
  (∃ l r, s = l +:+ f +:+ r ∧ all_space l ∧ all_space r) ∧
  (∀ w r, w ∈ space_encodings → f ≠ w +:+ r) ∧
  (∀ p w, w ∈ space_encodings → f ≠ p +:+ w).

(** Is one of the two texts a prefix of the other? *)
Fixpoint comparable (s1 s2 : string) : bool :=
  match s1, s2 with
  | String a s1', String b s2' => (Ascii.eqb a b && comparable s1' s2')%bool
  | _, _ => true
  end.

(** ** A reader of decimal numbers

    The sample sessions below pass it for [int] on text: it reads plain
    decimal notation (an optional sign, white space around the number),
    which [int] reads the same way, and refuses everything else. *)
Definition digit_of (c : ascii) : option Z :=
  if in_range 48 57 c then Some (Z.of_nat (nat_of_ascii c) - 48) else None.

Fixpoint parse_digits (s : string) (acc : Z) : option Z :=
  match s with
  | EmptyString => Some acc
  | String c s' =>
      match digit_of c with
      | Some n => parse_digits s' (10 * acc + n)
      | None => None
      end
  end.

Definition parse_int (s : string) : option Z :=
  match strip s with
  | EmptyString => None
  | String c r =>
      if Ascii.eqb c "-" then
        match r with EmptyString => None | _ => Z.opp <$> parse_digits r 0 end
      else if Ascii.eqb c "+" then
        match r with EmptyString => None | _ => parse_digits r 0 end
      else parse_digits (String c r) 0
  end.

Definition decimal_int (s : string) : result Z :=
  match parse_int s with
  | Some z => Ok z
  | None => Raise (ValueError
              ("invalid literal for int() with base 10: " +:+ py_quote s))
  end.

(** ** Views of the record store *)

Section Store.

Context {Analysis : Type}.
Implicit Types (st : @Dataset Analysis) (d kw : record) (cls : cldf_class)
         (i : value) (t : string).

(** The records of a table and the identifiers its index has seen. *)
Definition table_of st t : list record := default [] (objects st !! t).
Definition index_of st t : gset value := default ∅ (_obj_index st !! t).

Definition has_id i d : bool := bool_decide (d !! "ID" = Some i).

(** The records stored under identifier [i] in table [t]. *)
Definition stored st t i : list record := filter (λ d, has_id i d = true) (table_of st t).

(** Every stored record that carries an ID has it in the index of its
    table. *)
Definition store_consistent st : Prop :=
  ∀ t d i, d ∈ table_of st t → d !! "ID" = Some i → i ∈ index_of st t.

(** The record that [_add_object] works with after the constructor and
    the identifier loop. *)
Definition prepare cls kw : result record :=
  match instantiate cls kw with
  | Ok d => stringify_identifiers (cldf_table cls) d id_keys
  | Raise e => Raise e
  end.

(** A sequence of insert calls; a caller may go on after a failed one. *)
Fixpoint insert_all (calls : list (cldf_class * record)) st : @Dataset Analysis :=
  match calls with
  | [] => st
  | (cls, kw) :: calls' => insert_all calls' (fst (_add_object cls kw st))
  end.

End Store.

(** ** Views of the lexeme pipeline *)

Section Pipeline.

Context {Analysis Sound : Type}.
Implicit Types (st : @Dataset Analysis) (ds : @LexibankDataset Analysis Sound).

(** The candidates that become lexemes: non-empty, and still non-empty
    after cleaning and stripping; given here by their final forms. *)
Definition kept_forms ds (kw : record) (candidates : list string) : list string :=
  filter (λ f, f ≠ "")
    (map (λ c, strip (clean_form ds kw c)) (filter (λ c, c ≠ "") candidates)).

(** The same said without [strip]: a candidate that is empty, or white
    space throughout once cleaned, gives nothing; any other gives its
    cleaned text without the white space at the two ends. *)
Inductive kept_of ds (kw : record) : list string → list string → Prop :=
  | kept_of_nil : kept_of ds kw [] []
  | kept_of_skip c cands forms :
      c = "" ∨ all_space (clean_form ds kw c) →
      kept_of ds kw cands forms →
      kept_of ds kw (c :: cands) forms
  | kept_of_take c cands f forms :
      c ≠ "" → ¬ all_space (clean_form ds kw c) →
      stripped_of (clean_form ds kw c) f →
      kept_of ds kw cands forms →
      kept_of ds kw (c :: cands) (f :: forms).

(** The dictionary of an instance shows field [k] as it was passed. *)
Definition keeps_field (cls : cldf_class) (k : string) : Prop :=
  ∀ kw d, instantiate cls kw = Ok d → d !! k = kw !! k.

(** No identifier that the lexeme counter has yet to produce is in the
    index of table [t]. *)
Definition lexeme_ids_unused st (t : string) : Prop :=
  ∀ n, _count st < n → VStr (pretty n) ∉ index_of st t.

(** The condition under which a lexeme goes to [tr_bad_words]. *)
Definition flagged ds (_bipa : list Sound) (_sc : list string) : bool :=
  (existsb (is_UnknownSound ds) _bipa || bool_decide ("?" ∈ _sc))%bool.

End Pipeline.

(** ** A small dataset to run the model on *)

(** A class without defaults, converters or validators: the dictionary of
    an instance is the keyword dictionary itself. *)
Definition plain_class (t : string) : cldf_class :=
  {| cldf_table := t; instantiate := Ok |}.

Inductive demo_sound : Type := KnownSound | UnknownSound.

(** Cut a text at every occurrence of [sep]. *)
Fixpoint split_on (sep : ascii) (s : string) : list string :=
  match s with
  | EmptyString => [EmptyString]
  | String c s' =>
      if Ascii.eqb c sep then EmptyString :: split_on sep s'
      else match split_on sep s' with
           | w :: ws => String c w :: ws
           | [] => [String c EmptyString]
           end
  end.

Definition demo_dataset
    (tok : option (record → string → list string))
    (an : value → unit → unit * result (list demo_sound * list string))
    (glosses : gmap Z value) : @LexibankDataset unit demo_sound :=
  {| lexeme_class := plain_class "FormTable";
     language_class := plain_class "LanguageTable";
     concept_class := plain_class "ParameterTable";
     cognate_class := plain_class "CognateTable";
     split_forms := λ _ v, match v with VStr s => split_on ";" s | _ => [] end;
     clean_form := λ _ s, s;
     tokenizer := tok;
     new_Analysis := tt;
     analyze := an;
     is_UnknownSound := λ s, match s with UnknownSound => true | KnownSound => false end;
     languages := [];
     glottocode_by_iso := ∅;
     cached_glosses := glosses |}.

(** No tokenizer, an analyser that accepts everything, an empty catalog. *)
Definition demo : @LexibankDataset unit demo_sound :=
  demo_dataset None (λ _ a, (a, Ok ([], []))) ∅.

(** ** Views of finalisation *)

Section Finalisation.

Context {Analysis : Type}.
Implicit Types (st : @Dataset Analysis) (d : record).

(** [d]'s ID is the value of field [fk] of some record of [forms]. *)
Definition is_referenced (fk : string) (forms : list record) d : bool :=
  match d !! "ID" with
  | Some i => bool_decide (Exists (λ f, f !! fk = Some i) forms)
  | None => false
  end.

Definition has_hashable (k : string) d : bool :=
  match d !! k with
  | Some v => hashable v
  | None => false
  end.

(** The stores on which the pruning loop meets neither a missing key nor
    an unhashable value. *)
Definition finalizable st : bool :=
  (forallb (λ f, has_hashable "Language_ID" f && has_hashable "Parameter_ID" f)
     (table_of st "FormTable")
   && forallb (has_hashable "ID") (table_of st "LanguageTable")
   && forallb (has_hashable "ID") (table_of st "ParameterTable"))%bool.

Definition ensure_table (t : string) (o : gmap string (list record))
  : gmap string (list record) :=
  match o !! t with
  | Some _ => o
  | None => <[t := []]> o
  end.

(** The table map that finalisation is expected to leave: the four named
    tables exist, and the concept and language tables keep the records
    referenced from the form table. *)
Definition pruned_objects st : gmap string (list record) :=
  let forms := table_of st "FormTable" in
  let o1 := ensure_table "ParameterTable" (ensure_table "LanguageTable"
              (ensure_table "CognateTable" (ensure_table "FormTable" (objects st)))) in
  let o2 := <["ParameterTable" :=
               filter (λ d, is_referenced "Parameter_ID" forms d = true)
                      (table_of st "ParameterTable")]> o1 in
  <["LanguageTable" :=
      filter (λ d, is_referenced "Language_ID" forms d = true)
             (table_of st "LanguageTable")]> o2.

End Finalisation.

(** A store with two languages, two concepts, one cognate judgment and one
    form that refers to language [L1] and concept [c1]. *)
Definition sample_store : @Dataset unit :=
  insert_all
    [ (language_class demo, {[ "ID" := VStr "L1" ]});
      (language_class demo, {[ "ID" := VStr "L2" ]});
      (concept_class demo, {[ "ID" := VStr "c1" ]});
      (concept_class demo, {[ "ID" := VStr "c2" ]});
      (cognate_class demo, {[ "ID" := VInt 1; "Cognateset_ID" := VStr "s9" ]});
      (lexeme_class demo, {[ "ID" := VStr "1"; "Language_ID" := VStr "L1";
                             "Parameter_ID" := VStr "c1" ]}) ]
    (__init__ demo).

(** ** Sequences of calls to the identifier generators *)

Inductive id_call : Type := Lexeme_id_call | Cognate_id_call.

#[global] Instance id_call_eq_dec : EqDecision id_call.
Proof. solve_decision. Defined.

Inductive id_value : Type := LexemeId (s : string) | CognateId (n : Z).

Section Generators.

Context {Analysis : Type}.

Definition id_call_run (c : id_call) : @M Analysis id_value :=
  match c with
  | Lexeme_id_call => s ← lexeme_id; mret (LexemeId s)
  | Cognate_id_call => n ← cognate_id; mret (CognateId n)
  end.

(** The calls in order, with what each returned. *)
Fixpoint run_id_calls (calls : list id_call) : @M Analysis (list id_value) :=
  match calls with
  | [] => mret []
  | c :: calls' =>
      v ← id_call_run c;
      vs ← run_id_calls calls';
      mret (v :: vs)
  end.

Definition lexeme_ids_of (vs : list id_value) : list string :=
  omap (λ v, match v with LexemeId s => Some s | CognateId _ => None end) vs.

Definition cognate_ids_of (vs : list id_value) : list Z :=
  omap (λ v, match v with CognateId n => Some n | LexemeId _ => None end) vs.

Definition count_calls (c : id_call) (calls : list id_call) : nat :=
  length (filter (λ c', c' = c) calls).

End Generators.

(** A tokenizer that makes one segment of the whole form, and an analyser
    that knows a few segments by name: ["unk"] is an unknown sound with
    sound class ["?"], ["bad"] is malformed, ["key"] and ["attr"] hit a
    missing key and a missing attribute. *)
Definition demo_analyze (segments : value) (a : unit)
  : unit * result (list demo_sound * list string) :=
  if decide (segments = VList ["unk"]) then (a, Ok ([UnknownSound], ["?"]))
  else if decide (segments = VList ["bad"]) then (a, Raise (ValueError "malformed"))
  else if decide (segments = VList ["key"]) then (a, Raise KeyError)
  else if decide (segments = VList ["attr"]) then (a, Raise AttributeError)
  else (a, Ok ([KnownSound], ["K"])).

Definition demo_analysed : @LexibankDataset unit demo_sound :=
  demo_dataset (Some (λ _ s, [s])) demo_analyze ∅.

Definition demo_row (v : string) : record :=
  {[ "Value" := VStr v; "Language_ID" := VStr "L1"; "Parameter_ID" := VStr "c1" ]}.

(** ** Sample inputs *)

Definition first_record : record := {[ "ID" := VStr "L1"; "Name" := VStr "a" ]}.
Definition later_record : record := {[ "ID" := VStr "L1"; "Name" := VStr "b" ]}.
Definition later_calls : list (cldf_class * record) :=
  [ (language_class demo, {[ "ID" := VStr "L2" ]});
    (language_class demo, {[ "ID" := VStr "bad id!" ]});
    (language_class demo, {[ "ID" := VStr "L1"; "Name" := VStr "c" ]});
    (concept_class demo, {[ "ID" := VInt 1 ]}) ].

Definition concept_row : record := {[ "ID" := VStr "c1"; "Concepticon_ID" := VStr "1277" ]}.

(** A catalog identifier that is no number. *)
Definition unnumbered_concept_row : record :=
  {[ "ID" := VStr "c1"; "Concepticon_ID" := VStr "abc" ]}.

Definition walk_row : record := demo_row "to go; to walk".

(** ["ma"] followed by a no-break space, [;], and a no-break space. *)
Definition no_break_space : string := bytes [194; 160]%nat.
Definition no_break_row : record :=
  demo_row ("ma" +:+ no_break_space +:+ ";" +:+ no_break_space).

Definition walk_records : list record :=
  [ lexeme_kw demo walk_row "to go" 1; lexeme_kw demo walk_row "to walk" 2 ].

(** ** Further views of the record store *)

(** What the identifier loop leaves in an identifier field: nothing,
    [None], or a text that [ID_PATTERN.match] accepts. *)
Definition identifier_field (o : option value) : Prop :=
  o = None ∨ o = Some VNone ∨ ∃ s, o = Some (VStr s) ∧ ID_PATTERN_match s = true.

(** The table names set up by [__init__]. *)
Definition class_tables {Analysis Sound : Type} (ds : @LexibankDataset Analysis Sound)
  : list string :=
  [ cldf_table (lexeme_class ds); cldf_table (language_class ds);
    cldf_table (concept_class ds); cldf_table (cognate_class ds) ].

(** A session: the store after any sequence of insert calls on a new
    [Dataset]. *)
Definition session_store {Analysis Sound : Type} (ds : @LexibankDataset Analysis Sound)
    (calls : list (cldf_class * record)) : @Dataset Analysis :=
  insert_all calls (__init__ ds).

(** ** Further views of the assemblers *)

Section AssemblerViews.

Context {Analysis Sound : Type}.
Implicit Types (st : @Dataset Analysis) (ds : @LexibankDataset Analysis Sound).

(** A session of [add_lexemes] calls, one per row; a caller may go on
    after a call that raised. *)
Definition add_lexemes_rows ds (rows : list record) st : @Dataset Analysis :=
  foldl (λ s kw, fst (add_lexemes ds kw s)) st rows.

(** No identifier that the cognate counter has yet to produce is in the
    index of table [t]. *)
Definition cognate_ids_unused st (t : string) : Prop :=
  ∀ n, _cognate_count st < n → VStr (pretty n) ∉ index_of st t.

(** The lexeme argument of [add_cognate] is usable: absent, empty, or
    with both [ID] and [Form]. *)
Definition lexeme_usable (lexeme : option record) : Prop :=
  match lexeme with
  | None => True
  | Some lex => lex = ∅ ∨ (is_Some (lex !! "ID") ∧ is_Some (lex !! "Form"))
  end.

(** The default [id_factory] of [add_languages]: [lambda d: d['ID']]. *)
Definition default_id_factory (d : record) : result value := subscript d "ID".

(** A language descriptor as [add_languages] passes it on: a missing or
    falsy [Glottocode] next to a truthy [ISO639P3code] is looked up. *)
Definition with_glottocode ds (kw : record) : record :=
  if (negb (truthy (kw_get kw "Glottocode")) && truthy (kw_get kw "ISO639P3code"))%bool
  then <["Glottocode" := default VNone (glottocode_by_iso ds !! kw_get kw "ISO639P3code")]> kw
  else kw.

End AssemblerViews.

(** ** [pylexibank.util]: [get_variety_id] *)

Definition get_variety_id (row : record) : value :=
  let lid := kw_get row "Language_local_ID" in
  let lid := if negb (truthy lid) then kw_get row "Language_name" else lid in
  let lid := if negb (truthy lid) then kw_get row "Language_ID" else lid in
  lid.

(** ** More sample inputs *)

Definition cognate_row : record :=
  {[ "ID" := VInt 7; "Cognateset_ID" := VStr "s1"; "Form" := VStr "ma" ]}.

Definition cognate_record : record :=
  {[ "ID" := VStr "7"; "Cognateset_ID" := VStr "s1"; "Form" := VStr "ma" ]}.

(** A store whose only form has no [Parameter_ID]. *)
Definition broken_store : @Dataset unit :=
  insert_all [ (lexeme_class demo, {[ "ID" := VStr "1"; "Language_ID" := VStr "L1" ]}) ]
             (__init__ demo).

Definition judgment_row : record := {[ "Cognateset_ID" := VStr "s1" ]}.

(** Two language descriptors: one with an ISO code to look up, one with
    its own Glottocode. *)
Definition language_demo : @LexibankDataset unit demo_sound :=
  {| lexeme_class := plain_class "FormTable";
     language_class := plain_class "LanguageTable";
     concept_class := plain_class "ParameterTable";
     cognate_class := plain_class "CognateTable";
     split_forms := λ _ v, match v with VStr s => split_on ";" s | _ => [] end;
     clean_form := λ _ s, s;
     tokenizer := None;
     new_Analysis := tt;
     analyze := λ _ a, (a, Ok ([], []));
     is_UnknownSound := λ _, false;
     languages :=
       [ {[ "ID" := VStr "eng"; "ISO639P3code" := VStr "eng" ]};
         {[ "ID" := VStr "deu"; "ISO639P3code" := VStr "deu";
            "Glottocode" := VStr "stan1295" ]} ];
     glottocode_by_iso := {[ VStr "eng" := VStr "stan1293" ]};
     cached_glosses := ∅ |}.
(** ** Facts about the identifier pattern *)

Lemma id_tail_spec s :
  id_tail s = true ↔
  all_id_chars s = true ∨ ∃ p, s = p +:+ nl ∧ all_id_chars p = true.
Proof.
  induction s as [|c s IH]; simpl.
  - split; [by left | done].
  - destruct (id_char c) eqn:Hc; simpl.
    + rewrite IH. split.
      * intros [H | (p & -> & Hp)]; [by left | right].
        exists (String c p). simpl. by rewrite Hc.
      * intros [H | (p & Hs & Hp)]; [by left | right].
        destruct p as [|c' p]; simpl in *.
        { injection Hs as -> _. done. }
        injection Hs as -> ->.
        apply andb_true_iff in Hp as [_ Hp]. by exists p.
    + split.
      * intros H. right. destruct s; [|done].
        apply Ascii.eqb_eq in H as ->. by exists "".
      * intros [H | (p & Hs & Hp)]; [done |].
        destruct p as [|c' p]; simpl in *.
        { injection Hs as -> ->. done. }
        injection Hs as -> _. by rewrite Hc in Hp.
Qed.

Lemma ID_PATTERN_match_spec s :
  ID_PATTERN_match s = true ↔
  is_identifier s = true ∨ ∃ p, s = p +:+ nl ∧ is_identifier p = true.
Proof.
  destruct s as [|c s]; simpl.
  - split; [done |]. intros [H | (p & Hs & Hp)]; [done |].
    by destruct p.
  - rewrite andb_true_iff, id_tail_spec. split.
    + intros [Hc [H | (p & -> & Hp)]].
      * left. by rewrite Hc.
      * right. exists (String c p). simpl. by rewrite Hc.
    + intros [H | (p & Hs & Hp)].
      * apply andb_true_iff in H as [Hc H]. auto.
      * destruct p as [|c' p]; [done |]. simpl in *.
        injection Hs as -> ->.
        apply andb_true_iff in Hp as [Hc Hp]. split; [done |]. right. by exists p.
Qed.

Lemma is_identifier_match s : is_identifier s = true → ID_PATTERN_match s = true.
Proof. intros H. apply ID_PATTERN_match_spec. by left. Qed.

(** ** The record store *)

Section StoreFacts.

Context {Analysis : Type}.
Implicit Types (st : @Dataset Analysis) (d kw : record) (cls : cldf_class)
         (i : value) (t : string).

Lemma stringify_identifier_other t d key d' key' :
  stringify_identifier t d key = Ok d' → key' ≠ key → d' !! key' = d !! key'.
Proof.
  unfold stringify_identifier. intros H Hne.
  destruct (d !! key) as [v|]; [|by injection H as <-].
  destruct (decide (v = VNone)); [by injection H as <-|].
  destruct (ID_PATTERN_match (py_format v)); [|done].
  injection H as <-. by rewrite lookup_insert_ne.
Qed.

Lemma stringify_identifier_raises t d key e :
  stringify_identifier t d key = Raise e → ∃ msg, e = ValueError msg.
Proof.
  unfold stringify_identifier. intros H.
  destruct (d !! key) as [v|]; [|done].
  destruct (decide (v = VNone)); [done|].
  destruct (ID_PATTERN_match (py_format v)); [done|].
  injection H as <-. eauto.
Qed.

(** A present, non-[None] identifier field whose text the pattern rejects
    makes the loop raise [ValueError]. *)
Lemma stringify_identifiers_rejects t keys : ∀ d key v,
  NoDup keys → key ∈ keys → d !! key = Some v → v ≠ VNone →
  ID_PATTERN_match (py_format v) = false →
  ∃ msg, stringify_identifiers t d keys = Raise (ValueError msg).
Proof.
  induction keys as [|k keys IH]; intros d key v Hnd Hin Hv Hnone Hm.
  - by apply elem_of_nil in Hin.
  - apply NoDup_cons in Hnd as [Hk Hnd]. simpl.
    apply elem_of_cons in Hin as [-> | Hin].
    + unfold stringify_identifier. rewrite Hv.
      destruct (decide (v = VNone)); [done|]. rewrite Hm. eauto.
    + destruct (stringify_identifier t d k) as [d'|e] eqn:Hs.
      * apply (IH d' key v); try done.
        rewrite (stringify_identifier_other _ _ _ _ _ Hs); [done|].
        intros ->. done.
      * apply stringify_identifier_raises in Hs as [msg ->]. eauto.
Qed.

Lemma id_keys_NoDup : NoDup id_keys.
Proof. compute_done. Qed.

Lemma add_object_prepare cls kw st :
  _add_object cls kw st =
  match prepare cls kw with
  | Raise e => (st, Raise e)
  | Ok d =>
      match d !! "ID" with
      | None =>
          match objects st !! cldf_table cls with
          | Some l => (set_objects (<[cldf_table cls := l ++ [d]]> (objects st)) st, Ok d)
          | None => (st, Raise KeyError)
          end
      | Some i =>
          match _obj_index st !! cldf_table cls with
          | None => (st, Raise KeyError)
          | Some idx =>
              if bool_decide (i ∉ idx) then
                let st1 := set_obj_index (<[cldf_table cls := {[i]} ∪ idx]> (_obj_index st)) st in
                match objects st !! cldf_table cls with
                | Some l => (set_objects (<[cldf_table cls := l ++ [d]]> (objects st)) st1, Ok d)
                | None => (st1, Raise KeyError)
                end
              else (st, Ok d)
          end
      end
  end.
Proof.
  unfold _add_object, prepare, mbind, M_bind, mret, M_ret, lift.
  destruct (instantiate cls kw) as [d0|e]; [|done].
  destruct (stringify_identifiers (cldf_table cls) d0 id_keys) as [d|e]; [|done].
  destruct (d !! "ID") as [i|] eqn:Hid.
  - unfold subscript. destruct (_obj_index st !! cldf_table cls) as [idx|] eqn:Hidx; [|done].
    destruct (bool_decide (i ∉ idx)); [|done].
    unfold index_add, objects_append, modify, mbind, M_bind, subscript. rewrite Hidx. simpl.
    by destruct (objects st !! cldf_table cls).
  - unfold objects_append, modify, mbind, M_bind, subscript. simpl.
    by destruct (objects st !! cldf_table cls).
Qed.

End StoreFacts.

Section StoreTheorems.

Context {Analysis : Type}.
Implicit Types (st : @Dataset Analysis) (d kw : record) (cls : cldf_class)
         (i : value) (t : string).

Lemma table_of_set_objects st o t :
  table_of (set_objects o st) t = default [] (o !! t).
Proof. done. Qed.

Lemma index_of_set_objects st o t :
  index_of (set_objects o st) t = index_of st t.
Proof. done. Qed.

Lemma table_of_set_obj_index st x t :
  table_of (set_obj_index x st) t = table_of st t.
Proof. done. Qed.

Lemma index_of_set_obj_index st x t :
  index_of (set_obj_index x st) t = default ∅ (x !! t).
Proof. done. Qed.

Lemma index_of_lookup st t i :
  i ∈ index_of st t → ∃ idx, _obj_index st !! t = Some idx ∧ i ∈ idx.
Proof.
  unfold index_of. destruct (_obj_index st !! t) as [idx|]; simpl; [eauto|].
  intros H. by apply not_elem_of_empty in H.
Qed.

(** Inserting a prepared record whose ID the index has seen changes
    nothing and returns that record. *)
Lemma add_object_duplicate st cls kw d i :
  prepare cls kw = Ok d → d !! "ID" = Some i → i ∈ index_of st (cldf_table cls) →
  _add_object cls kw st = (st, Ok d).
Proof.
  intros Hp Hid Hin. rewrite add_object_prepare, Hp, Hid.
  apply index_of_lookup in Hin as (idx & -> & Hin).
  rewrite bool_decide_eq_false_2; [done|]. by intros H.
Qed.

(** Inserting a prepared record with an unseen ID appends it and marks
    the ID as seen. *)
Lemma add_object_fresh st cls kw d i idx l :
  prepare cls kw = Ok d → d !! "ID" = Some i →
  _obj_index st !! cldf_table cls = Some idx → i ∉ idx →
  objects st !! cldf_table cls = Some l →
  _add_object cls kw st =
    (set_objects (<[cldf_table cls := l ++ [d]]> (objects st))
       (set_obj_index (<[cldf_table cls := {[i]} ∪ idx]> (_obj_index st)) st), Ok d).
Proof.
  intros Hp Hid Hidx Hin Hl. rewrite add_object_prepare, Hp, Hid, Hidx, Hl.
  by rewrite bool_decide_eq_true_2.
Qed.

(** A failed insertion that raises in the constructor or in the
    identifier loop leaves the whole state as it was. *)
Lemma add_object_prepare_raises st cls kw e :
  prepare cls kw = Raise e → _add_object cls kw st = (st, Raise e).
Proof. intros Hp. by rewrite add_object_prepare, Hp. Qed.

(** What a successful insertion returns and does to the store. *)
Lemma add_object_ok st cls kw st' d :
  _add_object cls kw st = (st', Ok d) →
  prepare cls kw = Ok d ∧
  ((∃ i, d !! "ID" = Some i ∧ i ∈ index_of st (cldf_table cls) ∧ st' = st) ∨
   ((∀ i, d !! "ID" = Some i → i ∉ index_of st (cldf_table cls)) ∧
    table_of st' (cldf_table cls) = table_of st (cldf_table cls) ++ [d] ∧
    (∀ i, d !! "ID" = Some i →
       index_of st' (cldf_table cls) = {[i]} ∪ index_of st (cldf_table cls)) ∧
    (d !! "ID" = None → _obj_index st' = _obj_index st) ∧
    (∀ t, t ≠ cldf_table cls →
       table_of st' t = table_of st t ∧ index_of st' t = index_of st t))).
Proof.
  rewrite add_object_prepare. destruct (prepare cls kw) as [d1|e]; [|done].
  destruct (d1 !! "ID") as [i|] eqn:Hid.
  - unfold index_of, table_of.
    destruct (_obj_index st !! cldf_table cls) as [idx|] eqn:Hidx; [|done].
    case_bool_decide as Hin.
    + destruct (objects st !! cldf_table cls) as [l|] eqn:Hl; [|done].
      intros [= <- <-]. split; [done|]. right. simpl.
      rewrite !lookup_insert_eq, Hid. simpl.
      split; [by intros ? [= <-]|]. split; [done|]. split; [by intros ? [= <-]|].
      split; [done|]. intros t Hne. by rewrite !lookup_insert_ne.
    + intros [= <- <-]. split; [done|]. left. exists i. rewrite Hid.
      split; [done|]. split; [|done]. simpl.
      done.
  - unfold index_of, table_of.
    destruct (objects st !! cldf_table cls) as [l|] eqn:Hl; [|done].
    intros [= <- <-]. split; [done|]. right. simpl.
    rewrite !lookup_insert_eq, Hid. simpl.
    split; [done|]. split; [done|]. split; [done|]. split; [done|].
    intros t Hne. by rewrite !lookup_insert_ne.
Qed.

(** Once a record is the only one stored under an indexed ID, no insert
    call changes that, whether the call succeeds or raises. *)
Lemma add_object_keeps_stored st cls kw t i d :
  stored st t i = [d] → i ∈ index_of st t →
  let st' := fst (_add_object cls kw st) in
  stored st' t i = [d] ∧ i ∈ index_of st' t.
Proof.
  intros Hst Hin. rewrite add_object_prepare.
  destruct (prepare cls kw) as [d1|e]; [|done].
  destruct (d1 !! "ID") as [i1|] eqn:Hid.
  - destruct (_obj_index st !! cldf_table cls) as [idx|] eqn:Hidx; [|done].
    case_bool_decide as Hi1; [|done].
    assert (i ∈ index_of
              (set_obj_index (<[cldf_table cls:={[i1]} ∪ idx]> (_obj_index st)) st) t)
      as Hin'.
    { unfold index_of in *. simpl.
      destruct (decide (cldf_table cls = t)) as [<-|Hne].
      - rewrite lookup_insert_eq. rewrite Hidx in Hin. simpl in *. set_solver.
      - by rewrite lookup_insert_ne. }
    destruct (objects st !! cldf_table cls) as [l|] eqn:Hl; simpl; [|done].
    split; [|done]. unfold stored, table_of in *. simpl.
    destruct (decide (cldf_table cls = t)) as [<-|Hne].
    + rewrite lookup_insert_eq. rewrite Hl in Hst. simpl in *.
      rewrite filter_app, Hst. rewrite filter_cons_False, filter_nil; [done|].
      unfold has_id. rewrite Hid. rewrite bool_decide_eq_true.
      intros [= ->]. apply Hi1. unfold index_of in Hin.
      by rewrite Hidx in Hin.
    + by rewrite lookup_insert_ne.
  - destruct (objects st !! cldf_table cls) as [l|] eqn:Hl; simpl; [|done].
    split; [|done]. unfold stored, table_of in *. simpl.
    destruct (decide (cldf_table cls = t)) as [<-|Hne].
    + rewrite lookup_insert_eq. rewrite Hl in Hst. simpl in *.
      rewrite filter_app, Hst. rewrite filter_cons_False, filter_nil; [done|].
      unfold has_id. rewrite Hid. by rewrite bool_decide_eq_true.
    + by rewrite lookup_insert_ne.
Qed.

Lemma insert_all_keeps_stored calls : ∀ st t i d,
  stored st t i = [d] → i ∈ index_of st t →
  stored (insert_all calls st) t i = [d] ∧ i ∈ index_of (insert_all calls st) t.
Proof.
  induction calls as [|[cls kw] calls IH]; intros st t i d Hst Hin; [done|].
  simpl. destruct (add_object_keeps_stored st cls kw t i d Hst Hin) as [H1 H2].
  by apply IH.
Qed.

(** In a consistent store no record is stored under an unseen ID. *)
Lemma stored_unseen st t i :
  store_consistent st → i ∉ index_of st t → stored st t i = [].
Proof.
  intros Hc Hin. unfold stored.
  destruct (filter _ _) as [|d l] eqn:Hf; [done|]. exfalso.
  assert (d ∈ filter (λ d, has_id i d = true) (table_of st t)) as Hd
    by (rewrite Hf; left).
  apply list_elem_of_filter in Hd as [Hhas Hd]. apply Hin.
  apply (Hc t d i); [done|].
  unfold has_id in Hhas. by apply bool_decide_eq_true in Hhas.
Qed.

End StoreTheorems.

Section StoreClaims.

Context {Analysis Sound : Type}.
Implicit Types (st : @Dataset Analysis) (d kw : record) (cls : cldf_class)
         (i : value) (t : string).

Lemma init_tables_default {V} (ds : @LexibankDataset Analysis Sound) (v : V) t :
  default v (init_tables ds v !! t) = v.
Proof.
  unfold init_tables.
  repeat (rewrite lookup_insert; case_decide; [done|]).
  by rewrite lookup_empty.
Qed.

(** A new session starts from a consistent store. *)
Lemma init_consistent (ds : @LexibankDataset Analysis Sound) :
  store_consistent (__init__ ds).
Proof.
  intros t d i Hd _. unfold table_of in Hd. simpl in Hd.
  rewrite init_tables_default in Hd. by apply elem_of_nil in Hd.
Qed.

(** Insert calls keep the store consistent, also when they raise. *)
Lemma add_object_consistent st cls kw :
  store_consistent st → store_consistent (fst (_add_object cls kw st)).
Proof.
  intros Hc. rewrite add_object_prepare.
  destruct (prepare cls kw) as [d1|e]; [|done].
  destruct (d1 !! "ID") as [i1|] eqn:Hid.
  - destruct (_obj_index st !! cldf_table cls) as [idx|] eqn:Hidx; [|done].
    case_bool_decide as Hi1; [|done].
    assert (∀ t i, i ∈ index_of st t →
              i ∈ default ∅ (<[cldf_table cls:={[i1]} ∪ idx]> (_obj_index st) !! t))
      as Hmono.
    { intros t i Hi. unfold index_of in Hi.
      destruct (decide (cldf_table cls = t)) as [<-|Hne].
      - rewrite lookup_insert_eq. rewrite Hidx in Hi. simpl in *. set_solver.
      - by rewrite lookup_insert_ne. }
    destruct (objects st !! cldf_table cls) as [l|] eqn:Hl; simpl.
    + intros t d i Hd Hi. unfold table_of, index_of in *. simpl in *.
      destruct (decide (cldf_table cls = t)) as [<-|Hne].
      * rewrite lookup_insert_eq in Hd. rewrite lookup_insert_eq. simpl in *.
        apply elem_of_app in Hd as [Hd | Hd].
        -- apply elem_of_union_r.
           specialize (Hc (cldf_table cls) d i). unfold table_of, index_of in Hc.
           rewrite Hl, Hidx in Hc. by apply Hc.
        -- apply list_elem_of_singleton in Hd as ->.
           rewrite Hid in Hi. injection Hi as ->. set_solver.
      * rewrite lookup_insert_ne in Hd by done. rewrite lookup_insert_ne by done.
        by apply (Hc t d i).
    + intros t d i Hd Hi. unfold index_of. simpl. apply Hmono. by apply (Hc t d i).
  - destruct (objects st !! cldf_table cls) as [l|] eqn:Hl; simpl; [|done].
    intros t d i Hd Hi. unfold table_of, index_of in *. simpl in *.
    destruct (decide (cldf_table cls = t)) as [<-|Hne].
    + rewrite lookup_insert_eq in Hd. simpl in *.
      apply elem_of_app in Hd as [Hd | Hd].
      * specialize (Hc (cldf_table cls) d i). unfold table_of, index_of in Hc.
        rewrite Hl in Hc. by apply Hc.
      * apply list_elem_of_singleton in Hd as ->. by rewrite Hid in Hi.
    + rewrite lookup_insert_ne in Hd by done. by apply (Hc t d i).
Qed.

(** C1. Duplicate suppression, first record wins.  Take a consistent
    store and a successful insert of a record [d] whose ID [i] the index
    of its table has not seen.  After any further sequence of insert
    calls (into any tables, failing or not), inserting a record [d'] with
    the same ID into the same table is a silent no-op: it raises nothing,
    returns, and leaves the whole state, hence the table, unchanged; and
    the one record stored under [i] is still the first-inserted [d],
    never a later one. *)
Theorem C1_duplicate_insert_keeps_first st cls kw st1 d i calls cls' kw' d' :
  store_consistent st →
  _add_object cls kw st = (st1, Ok d) →
  d !! "ID" = Some i →
  i ∉ index_of st (cldf_table cls) →
  cldf_table cls' = cldf_table cls →
  prepare cls' kw' = Ok d' →
  d' !! "ID" = Some i →
  let st2 := insert_all calls st1 in
  _add_object cls' kw' st2 = (st2, Ok d') ∧
  stored st2 (cldf_table cls) i = [d].
Proof.
  intros Hc Hadd Hid Hunseen Ht Hp' Hid' st2.
  apply add_object_ok in Hadd as [Hp [(i0 & Hi0 & Hseen & _) | (_ & Htab & Hidx & _)]].
  { rewrite Hid in Hi0. injection Hi0 as <-. done. }
  assert (stored st1 (cldf_table cls) i = [d] ∧ i ∈ index_of st1 (cldf_table cls))
    as [Hst1 Hin1].
  { split.
    - unfold stored. rewrite Htab, filter_app. fold (stored st (cldf_table cls) i).
      rewrite (stored_unseen st _ i Hc Hunseen). simpl.
      rewrite filter_cons_True, filter_nil; [done|].
      unfold has_id. by rewrite bool_decide_eq_true.
    - rewrite (Hidx i Hid). apply elem_of_union_l. by apply elem_of_singleton. }
  destruct (insert_all_keeps_stored calls st1 _ i d Hst1 Hin1) as [Hst2 Hin2].
  split; [|done].
  apply (add_object_duplicate st2 cls' kw' d' i); [done|done|]. by rewrite Ht.
Qed.

(** C9 as amended.  A successful insert returns the record prepared from
    the call's own keywords (constructed, identifier fields turned into
    text).  When its ID is unseen (or it has none) that record is appended
    and, in a consistent store, is the one stored under its ID.  When the
    insert is suppressed as a duplicate the state is unchanged and the
    returned record is still the new one. *)
Theorem C9_insert_returns_prepared st cls kw st' d :
  _add_object cls kw st = (st', Ok d) →
  prepare cls kw = Ok d ∧
  ((∀ i, d !! "ID" = Some i → i ∉ index_of st (cldf_table cls)) →
     table_of st' (cldf_table cls) = table_of st (cldf_table cls) ++ [d]) ∧
  (∀ i, store_consistent st → d !! "ID" = Some i →
     i ∉ index_of st (cldf_table cls) → stored st' (cldf_table cls) i = [d]) ∧
  (∀ i, d !! "ID" = Some i → i ∈ index_of st (cldf_table cls) → st' = st).
Proof.
  intros Hadd.
  apply add_object_ok in Hadd as [Hp [(i0 & Hi0 & Hseen & ->) | (Hun & Htab & _)]].
  - split; [done|]. split; [|split].
    + intros H. by destruct (H i0 Hi0).
    + intros i _ Hi Hni. rewrite Hi0 in Hi. injection Hi as <-. done.
    + done.
  - split; [done|]. split; [done|]. split.
    + intros i Hc Hi Hni. unfold stored. rewrite Htab, filter_app.
      fold (stored st (cldf_table cls) i). rewrite (stored_unseen st _ i Hc Hni). simpl.
      rewrite filter_cons_True, filter_nil; [done|].
      unfold has_id. by rewrite bool_decide_eq_true.
    + intros i Hi Hin. by destruct (Hun i Hi).
Qed.

(** An identifier field that is present, not [None], and whose text
    [ID_PATTERN.match] rejects makes the insertion raise [ValueError]
    before the store is touched. *)
Lemma add_object_rejects st cls kw d key v :
  instantiate cls kw = Ok d → key ∈ id_keys → d !! key = Some v → v ≠ VNone →
  ID_PATTERN_match (py_format v) = false →
  ∃ msg, _add_object cls kw st = (st, Raise (ValueError msg)).
Proof.
  intros Hi Hk Hv Hn Hm.
  destruct (stringify_identifiers_rejects (cldf_table cls) id_keys d key v
              id_keys_NoDup Hk Hv Hn Hm) as [msg Hmsg].
  exists msg. apply add_object_prepare_raises. unfold prepare. by rewrite Hi.
Qed.

(** The texts the code lets through are the identifiers and the
    identifiers followed by one newline; everything else is rejected. *)
Lemma add_object_rejects_non_identifier st cls kw d key v :
  instantiate cls kw = Ok d → key ∈ id_keys → d !! key = Some v → v ≠ VNone →
  is_identifier (py_format v) = false →
  (∀ p, py_format v = p +:+ nl → is_identifier p = false) →
  ∃ msg, _add_object cls kw st = (st, Raise (ValueError msg)).
Proof.
  intros Hi Hk Hv Hn Hid Hnl. apply (add_object_rejects st cls kw d key v); try done.
  destruct (ID_PATTERN_match (py_format v)) eqn:Hm; [|done].
  apply ID_PATTERN_match_spec in Hm as [Hm | (p & Hp & Hm)].
  - by rewrite Hid in Hm.
  - by rewrite (Hnl p Hp) in Hm.
Qed.

End StoreClaims.

(** The scenario of the specification: the ID ["bad id!"] is refused and
    nothing is stored. *)
Example bad_id_is_refused :
  ∃ msg, _add_object (language_class demo) {[ "ID" := VStr "bad id!" ]} (__init__ demo)
         = (__init__ demo, Raise (ValueError msg)).
Proof. eexists. vm_compute. reflexivity. Qed.

Lemma C1_witness :
  let st1 := fst (_add_object (language_class demo) first_record (__init__ demo)) in
  let st2 := insert_all later_calls st1 in
  _add_object (language_class demo) later_record st2 = (st2, Ok later_record) ∧
  stored st2 "LanguageTable" (VStr "L1") = [first_record].
Proof.
  apply (C1_duplicate_insert_keeps_first (__init__ demo) (language_class demo) first_record
           _ first_record (VStr "L1") later_calls (language_class demo) later_record later_record).
  - apply init_consistent.
  - vm_compute. reflexivity.
  - vm_compute. reflexivity.
  - vm_compute. intros H. discriminate H.
  - reflexivity.
  - vm_compute. reflexivity.
  - vm_compute. reflexivity.
Defined.

(** C9 as stated fails: a suppressed duplicate returns the new record,
    not the first-inserted one that stays stored. *)
Lemma C9_returned_differs_from_stored :
  let st1 := fst (_add_object (language_class demo) first_record (__init__ demo)) in
  _add_object (language_class demo) later_record st1 = (st1, Ok later_record) ∧
  stored st1 "LanguageTable" (VStr "L1") = [first_record] ∧
  later_record ≠ first_record.
Proof.
  split; [vm_compute; reflexivity|]. split; [vm_compute; reflexivity|].
  intros H. assert (later_record !! "Name" = first_record !! "Name") as H' by (by rewrite H).
  vm_compute in H'. discriminate H'.
Qed.

Lemma C9_witness :
  let st1 := fst (_add_object (language_class demo) first_record (__init__ demo)) in
  prepare (language_class demo) later_record = Ok later_record ∧
  ((∀ i, later_record !! "ID" = Some i → i ∉ index_of st1 "LanguageTable") →
     table_of st1 "LanguageTable" = table_of st1 "LanguageTable" ++ [later_record]) ∧
  (∀ i, store_consistent st1 → later_record !! "ID" = Some i →
     i ∉ index_of st1 "LanguageTable" → stored st1 "LanguageTable" i = [later_record]) ∧
  (∀ i, later_record !! "ID" = Some i → i ∈ index_of st1 "LanguageTable" → st1 = st1).
Proof.
  apply (C9_insert_returns_prepared _ (language_class demo) later_record).
  vm_compute. reflexivity.
Defined.

(** C2.  The check of the ID is not the full pattern: ["abc"] followed by
    a newline is not an [[A-Za-z0-9_-]+] identifier, yet [ID_PATTERN.match]
    accepts it (the pattern ends in [$], which also matches in front of a
    final newline), so the insertion succeeds, the record is appended to
    the table and the ID is added to the index. *)
Theorem C2_trailing_newline_id_is_stored :
  let bad := "abc" +:+ nl in
  let kw : record := {[ "ID" := VStr bad ]} in
  is_identifier bad = false ∧
  ∃ st', _add_object (language_class demo) kw (__init__ demo) = (st', Ok kw) ∧
         table_of st' "LanguageTable" = [kw] ∧
         index_of st' "LanguageTable" = {[ VStr bad ]}.
Proof.
  split; [reflexivity|]. eexists. split; [vm_compute; reflexivity|].
  split; vm_compute; reflexivity.
Qed.

(** C10.  The loop over [Language_ID], [Parameter_ID] and [Cognateset_ID]
    applies the same check as for the ID, and with it the same gap: a
    lexeme with a valid ID and the Language_ID ["L1"] followed by a
    newline is stored, although that text is not an [[A-Za-z0-9_-]+]
    identifier. *)
Theorem C10_trailing_newline_language_id_is_stored :
  let bad := "L1" +:+ nl in
  let kw : record := {[ "ID" := VStr "1"; "Language_ID" := VStr bad ]} in
  is_identifier bad = false ∧
  ∃ st', _add_object (lexeme_class demo) kw (__init__ demo) = (st', Ok kw) ∧
         table_of st' "FormTable" = [kw] ∧
         index_of st' "FormTable" = {[ VStr "1" ]}.
Proof.
  split; [reflexivity|]. eexists. split; [vm_compute; reflexivity|].
  split; vm_compute; reflexivity.
Qed.

(** A malformed Language_ID next to a valid ID is refused, as in the
    example of the specification. *)
Example bad_language_id_is_refused :
  ∃ msg, _add_object (lexeme_class demo)
           {[ "ID" := VStr "1"; "Language_ID" := VStr "bad id!" ]} (__init__ demo)
         = (__init__ demo, Raise (ValueError msg)).
Proof. eexists. vm_compute. reflexivity. Qed.

(** ** Finalisation *)

Section FinalisationFacts.

Context {Analysis : Type}.
Implicit Types (st s : @Dataset Analysis) (d : record).

Lemma set_objects_same s : set_objects (objects s) s = s.
Proof. by destruct s. Qed.

Lemma setdefault_table_run t s :
  setdefault_table t s = (set_objects (ensure_table t (objects s)) s, Ok tt).
Proof.
  unfold setdefault_table, modify, ensure_table.
  destruct (objects s !! t); [by rewrite set_objects_same | done].
Qed.

Lemma ensure_table_default t t' (o : gmap string (list record)) :
  default [] (ensure_table t o !! t') = default [] (o !! t').
Proof.
  unfold ensure_table. destruct (o !! t) eqn:Ht; [done|].
  destruct (decide (t = t')) as [<-|Hne].
  - by rewrite lookup_insert_eq, Ht.
  - by rewrite lookup_insert_ne.
Qed.

Lemma ensure_table_is_Some t t' (o : gmap string (list record)) :
  is_Some (o !! t') → is_Some (ensure_table t o !! t').
Proof.
  unfold ensure_table. destruct (o !! t) eqn:Ht; [done|].
  intros H. destruct (decide (t = t')) as [<-|Hne].
  - rewrite lookup_insert_eq. eauto.
  - by rewrite lookup_insert_ne.
Qed.

Lemma ensure_table_here t (o : gmap string (list record)) :
  is_Some (ensure_table t o !! t).
Proof.
  unfold ensure_table. destruct (o !! t) eqn:Ht; [by rewrite Ht; eauto|].
  rewrite lookup_insert_eq. eauto.
Qed.

Lemma ensure_table_id t (o : gmap string (list record)) :
  is_Some (o !! t) → ensure_table t o = o.
Proof. unfold ensure_table. by intros [l ->]. Qed.

(** The set built from the forms holds exactly the values of field [fk]. *)
Lemma collect_refs_ok fk forms : ∀ acc,
  forallb (has_hashable fk) forms = true →
  ∃ refs, collect_refs fk forms acc = Ok refs ∧
          ∀ v, v ∈ refs ↔ v ∈ acc ∨ Exists (λ f, f !! fk = Some v) forms.
Proof.
  induction forms as [|f forms IH]; intros acc Hall; simpl.
  - exists acc. split; [done|]. intros v. rewrite Exists_nil. tauto.
  - simpl in Hall. apply andb_true_iff in Hall as [Hf Hall].
    unfold has_hashable in Hf. destruct (f !! fk) as [w|] eqn:Hw; [|done].
    rewrite Hf. destruct (IH ({[w]} ∪ acc) Hall) as (refs & -> & Hrefs).
    exists refs. split; [done|]. intros v. rewrite Hrefs, Exists_cons.
    rewrite elem_of_union, elem_of_singleton. split.
    + intros [[-> | H] | H]; auto.
    + intros [H | [Hv | H]]; auto.
      rewrite Hw in Hv. injection Hv as ->. auto.
Qed.

Lemma collect_refs_inv fk forms : ∀ acc refs,
  collect_refs fk forms acc = Ok refs → forallb (has_hashable fk) forms = true.
Proof.
  induction forms as [|f forms IH]; intros acc refs H; [done|].
  cbn [collect_refs forallb] in *. unfold has_hashable at 1.
  destruct (f !! fk) as [w|]; [|done].
  destruct (hashable w); [|done]. by apply (IH _ _ H).
Qed.

Lemma keep_referenced_ok fk forms refs objs :
  (∀ v, v ∈ refs ↔ Exists (λ f, f !! fk = Some v) forms) →
  forallb (has_hashable "ID") objs = true →
  keep_referenced refs objs
  = Ok (filter (λ d, is_referenced fk forms d = true) objs).
Proof.
  intros Hrefs. induction objs as [|d objs IH]; intros Hall; [done|].
  cbn [keep_referenced forallb] in *. apply andb_true_iff in Hall as [Hd Hall].
  unfold has_hashable in Hd. destruct (d !! "ID") as [i|] eqn:Hi; [|done].
  rewrite Hd, (IH Hall). f_equal.
  assert (is_referenced fk forms d = bool_decide (i ∈ refs)) as Href.
  { unfold is_referenced. rewrite Hi. apply bool_decide_ext. by rewrite Hrefs. }
  rewrite filter_cons, Href.
  destruct (bool_decide (i ∈ refs)); [by rewrite decide_True | by rewrite decide_False].
Qed.

Lemma keep_referenced_inv refs objs kept :
  keep_referenced refs objs = Ok kept → forallb (has_hashable "ID") objs = true.
Proof.
  revert kept. induction objs as [|d objs IH]; intros kept H; [done|].
  cbn [keep_referenced forallb] in *. unfold has_hashable at 1.
  destruct (d !! "ID") as [i|]; [|done].
  destruct (hashable i); [|done].
  destruct (keep_referenced refs objs) as [k|] eqn:Hk; [|done]. by apply (IH k).
Qed.

(** One round of the pruning loop on a store that has both tables. *)
Lemma prune_run fk table s forms objs :
  objects s !! "FormTable" = Some forms →
  objects s !! table = Some objs →
  forallb (has_hashable fk) forms = true →
  forallb (has_hashable "ID") objs = true →
  prune fk table s
  = (set_objects
       (<[table := filter (λ d, is_referenced fk forms d = true) objs]> (objects s)) s,
     Ok tt).
Proof.
  intros Hf Ho Hfa Hoa. unfold prune, mbind, M_bind, subscript, lift, modify.
  rewrite Hf. destruct (collect_refs_ok fk forms ∅ Hfa) as (refs & -> & Hrefs).
  rewrite Ho. rewrite (keep_referenced_ok fk forms refs objs); [done| |done].
  intros v. rewrite Hrefs. split; [|auto]. intros [H|H]; [|done].
  by apply not_elem_of_empty in H.
Qed.

Lemma prune_inv fk table s s' :
  prune fk table s = (s', Ok tt) →
  ∃ forms objs, objects s !! "FormTable" = Some forms ∧ objects s !! table = Some objs ∧
    forallb (has_hashable fk) forms = true ∧ forallb (has_hashable "ID") objs = true.
Proof.
  unfold prune, mbind, M_bind, subscript, lift, modify.
  destruct (objects s !! "FormTable") as [forms|]; [|done].
  destruct (collect_refs fk forms ∅) as [refs|] eqn:Hc; [|done].
  destruct (objects s !! table) as [objs|]; [|done].
  destruct (keep_referenced refs objs) as [kept|] eqn:Hk; [|done].
  intros _. exists forms, objs. repeat split; try done.
  - by apply (collect_refs_inv _ _ _ _ Hc).
  - by apply (keep_referenced_inv _ _ _ Hk).
Qed.

Lemma filter_is_referenced_idem fk forms (objs : list record) :
  filter (λ d, is_referenced fk forms d = true)
    (filter (λ d, is_referenced fk forms d = true) objs)
  = filter (λ d, is_referenced fk forms d = true) objs.
Proof.
  induction objs as [|d objs IH]; [done|].
  rewrite (filter_cons _ d objs). case_decide as Hd; [|done].
  rewrite filter_cons, decide_True by done. by rewrite IH.
Qed.

Lemma forallb_filter {A} (p : A → bool) (P : A → Prop) `{∀ x, Decision (P x)} l :
  forallb p l = true → forallb p (filter P l) = true.
Proof.
  induction l as [|x l IH]; [done|]. simpl. intros [Hx Hl]%andb_true_iff.
  rewrite filter_cons. case_decide; [|auto]. simpl. rewrite Hx. auto.
Qed.

Lemma lookup_of_default (o : gmap string (list record)) t :
  is_Some (o !! t) → o !! t = Some (default [] (o !! t)).
Proof. by intros [l ->]. Qed.

Lemma ensured_lookup (o : gmap string (list record)) t :
  t ∈ ["FormTable"; "CognateTable"; "LanguageTable"; "ParameterTable"] →
  ensure_table "ParameterTable" (ensure_table "LanguageTable"
    (ensure_table "CognateTable" (ensure_table "FormTable" o))) !! t
  = Some (default [] (o !! t)).
Proof.
  intros Ht. rewrite lookup_of_default.
  - by rewrite !ensure_table_default.
  - repeat (apply elem_of_cons in Ht as [-> | Ht]);
      [| | | | by apply elem_of_nil in Ht];
      repeat first [apply ensure_table_here | apply ensure_table_is_Some].
Qed.

Lemma finalizable_split st :
  finalizable st = true ↔
  forallb (has_hashable "Language_ID") (table_of st "FormTable") = true ∧
  forallb (has_hashable "Parameter_ID") (table_of st "FormTable") = true ∧
  forallb (has_hashable "ID") (table_of st "LanguageTable") = true ∧
  forallb (has_hashable "ID") (table_of st "ParameterTable") = true.
Proof.
  unfold finalizable. rewrite !andb_true_iff.
  assert (∀ l : list record,
            forallb (λ f, has_hashable "Language_ID" f && has_hashable "Parameter_ID" f) l
            = true ↔
            forallb (has_hashable "Language_ID") l = true ∧
            forallb (has_hashable "Parameter_ID") l = true) as Hboth.
  { induction l as [|f l IH]; [done|]. cbn [forallb].
    rewrite !andb_true_iff, IH. tauto. }
  rewrite Hboth. tauto.
Qed.

(** On a finalisable store the pruning part of [__exit__] returns and
    leaves exactly [pruned_objects]; nothing else of the state changes. *)
Lemma finalize_run st :
  finalizable st = true →
  finalize st = (set_objects (pruned_objects st) st, Ok tt).
Proof.
  intros (HfL & HfP & HL & HP)%finalizable_split.
  unfold finalize, mbind, M_bind. rewrite !setdefault_table_run.
  cbn [objects set_objects].
  set (o1 := ensure_table "ParameterTable" _).
  assert (∀ t, t ∈ ["FormTable"; "CognateTable"; "LanguageTable"; "ParameterTable"] →
            o1 !! t = Some (table_of st t)) as Ho1.
  { intros t Ht. by apply ensured_lookup. }
  rewrite (prune_run "Parameter_ID" "ParameterTable" _
             (table_of st "FormTable") (table_of st "ParameterTable")); try done.
  2: { cbn [objects set_objects]. apply Ho1. set_solver. }
  2: { cbn [objects set_objects]. apply Ho1. set_solver. }
  cbn [objects set_objects].
  rewrite (prune_run "Language_ID" "LanguageTable" _
             (table_of st "FormTable") (table_of st "LanguageTable")); try done.
  - cbn [objects set_objects]. rewrite lookup_insert_ne by done. apply Ho1. set_solver.
  - cbn [objects set_objects]. rewrite lookup_insert_ne by done. apply Ho1. set_solver.
Qed.

(** Conversely the pruning part returns only on finalisable stores. *)
Lemma finalize_inv st st' :
  finalize st = (st', Ok tt) → finalizable st = true.
Proof.
  unfold finalize, mbind, M_bind. rewrite !setdefault_table_run.
  cbn [objects set_objects].
  set (o1 := ensure_table "ParameterTable" _).
  assert (∀ t, t ∈ ["FormTable"; "CognateTable"; "LanguageTable"; "ParameterTable"] →
            o1 !! t = Some (table_of st t)) as Ho1.
  { intros t Ht. by apply ensured_lookup. }
  destruct (prune "Parameter_ID" "ParameterTable" _) as [s2 [[]|e]] eqn:Hp1; [|done].
  intros Hp2.
  destruct (prune_inv _ _ _ _ Hp1) as (forms & objs & Hf & Ho & Hfa & Hoa).
  cbn [objects set_objects] in Hf, Ho.
  rewrite Ho1 in Hf by set_solver. rewrite Ho1 in Ho by set_solver.
  injection Hf as <-. injection Ho as <-.
  rewrite (prune_run "Parameter_ID" "ParameterTable" _
             (table_of st "FormTable") (table_of st "ParameterTable")) in Hp1; try done.
  2: { cbn [objects set_objects]. apply Ho1. set_solver. }
  2: { cbn [objects set_objects]. apply Ho1. set_solver. }
  injection Hp1 as <-.
  destruct (prune_inv _ _ _ _ Hp2) as (forms & objs & Hf & Ho & Hfa' & Hoa').
  cbn [objects set_objects] in Hf, Ho.
  rewrite lookup_insert_ne in Hf by done. rewrite lookup_insert_ne in Ho by done.
  rewrite Ho1 in Hf by set_solver. rewrite Ho1 in Ho by set_solver.
  injection Hf as <-. injection Ho as <-.
  apply finalizable_split. auto.
Qed.

Lemma table_of_pruned st t :
  table_of (set_objects (pruned_objects st) st) t =
  if decide (t = "LanguageTable") then
    filter (λ d, is_referenced "Language_ID" (table_of st "FormTable") d = true)
           (table_of st "LanguageTable")
  else if decide (t = "ParameterTable") then
    filter (λ d, is_referenced "Parameter_ID" (table_of st "FormTable") d = true)
           (table_of st "ParameterTable")
  else table_of st t.
Proof.
  unfold table_of at 1. cbn [objects set_objects]. unfold pruned_objects.
  case_decide as HL; [subst; by rewrite lookup_insert_eq|].
  rewrite lookup_insert_ne by done.
  case_decide as HP; [subst; by rewrite lookup_insert_eq|].
  rewrite lookup_insert_ne by done. by rewrite !ensure_table_default.
Qed.

Lemma is_referenced_elim fk forms d :
  is_referenced fk forms d = true →
  ∃ i f, d !! "ID" = Some i ∧ f ∈ forms ∧ f !! fk = Some i.
Proof.
  unfold is_referenced. destruct (d !! "ID") as [i|]; [|done].
  intros H%bool_decide_eq_true. apply Exists_exists in H as (f & Hf & Hfk). eauto.
Qed.

Lemma is_referenced_intro fk forms d i f :
  d !! "ID" = Some i → f ∈ forms → f !! fk = Some i → is_referenced fk forms d = true.
Proof.
  intros Hi Hf Hfk. unfold is_referenced. rewrite Hi.
  apply bool_decide_eq_true. apply Exists_exists. eauto.
Qed.

End FinalisationFacts.

Section FinalisationClaims.

Context {Analysis : Type}.
Implicit Types (st : @Dataset Analysis) (d : record).

(** C3. Referential pruning at session exit.  On a store that can be
    finalised, [__exit__] returns, and afterwards: a record is in the
    language table exactly when it was there before and its ID is the
    Language_ID of some form-table record; likewise for the concept table
    and Parameter_ID; the kept records keep their order; the form table
    and the cognate table are as they were; and the table map handed to
    the writer is the pruned one. *)
Theorem C3_exit_keeps_only_referenced st :
  finalizable st = true →
  ∃ st', __exit__ st = (st', Ok tt) ∧
    (∀ d, d ∈ table_of st' "LanguageTable" ↔
          d ∈ table_of st "LanguageTable" ∧
          ∃ i f, d !! "ID" = Some i ∧ f ∈ table_of st' "FormTable" ∧
                 f !! "Language_ID" = Some i) ∧
    (∀ d, d ∈ table_of st' "ParameterTable" ↔
          d ∈ table_of st "ParameterTable" ∧
          ∃ i f, d !! "ID" = Some i ∧ f ∈ table_of st' "FormTable" ∧
                 f !! "Parameter_ID" = Some i) ∧
    table_of st' "LanguageTable" `sublist_of` table_of st "LanguageTable" ∧
    table_of st' "ParameterTable" `sublist_of` table_of st "ParameterTable" ∧
    table_of st' "FormTable" = table_of st "FormTable" ∧
    table_of st' "CognateTable" = table_of st "CognateTable" ∧
    last (written st') = Some (objects st').
Proof.
  intros Hfin. unfold __exit__, mbind, M_bind. rewrite (finalize_run st Hfin).
  eexists. split; [reflexivity|].
  unfold write, modify. cbn [written set_written objects set_objects].
  change (table_of (set_written ?w ?s)) with (table_of s).
  rewrite !table_of_pruned. simpl.
  split; [|split; [|split; [|split; [|split; [|split]]]]]; try done.
  - intros d. rewrite list_elem_of_filter. split.
    + intros [Href Hd]. split; [done|]. by apply is_referenced_elim.
    + intros [Hd (i & f & Hi & Hf & Hfk)]. split; [|done].
      by apply (is_referenced_intro _ _ _ i f).
  - intros d. rewrite list_elem_of_filter. split.
    + intros [Href Hd]. split; [done|]. by apply is_referenced_elim.
    + intros [Hd (i & f & Hi & Hf & Hfk)]. split; [|done].
      by apply (is_referenced_intro _ _ _ i f).
  - apply sublist_filter.
  - apply sublist_filter.
  - by rewrite last_snoc.
Qed.

(** C7. Pruning twice is pruning once: when the pruning part of
    [__exit__] has returned, running it again returns and leaves the very
    same state, and a whole second [__exit__] leaves the same table
    map. *)
Theorem C7_finalize_idempotent st st' :
  finalize st = (st', Ok tt) →
  finalize st' = (st', Ok tt) ∧
  ∃ st'', __exit__ st' = (st'', Ok tt) ∧ objects st'' = objects st'.
Proof.
  intros Hrun. pose proof (finalize_inv st st' Hrun) as Hfin.
  rewrite (finalize_run st Hfin) in Hrun. injection Hrun as <-.
  assert (finalizable (set_objects (pruned_objects st) st) = true) as Hfin'.
  { apply finalizable_split. apply finalizable_split in Hfin as (HfL & HfP & HL & HP).
    rewrite !table_of_pruned. simpl. repeat split; try done.
    - by apply forallb_filter.
    - by apply forallb_filter. }
  assert (pruned_objects (set_objects (pruned_objects st) st) = pruned_objects st) as Hsame.
  { unfold pruned_objects at 1. rewrite !table_of_pruned. simpl.
    cbn [objects set_objects]. rewrite !filter_is_referenced_idem.
    assert (∀ t, t ∈ ["FormTable"; "CognateTable"; "LanguageTable"; "ParameterTable"] →
              is_Some (pruned_objects st !! t)) as Hhas.
    { intros t Ht. unfold pruned_objects.
      destruct (decide (t = "LanguageTable")) as [->|HL];
        [rewrite lookup_insert_eq; eauto|].
      rewrite lookup_insert_ne by done.
      destruct (decide (t = "ParameterTable")) as [->|HP];
        [rewrite lookup_insert_eq; eauto|].
      rewrite lookup_insert_ne by done. rewrite ensured_lookup by done. eauto. }
    rewrite (ensure_table_id "FormTable") by (apply Hhas; set_solver).
    rewrite (ensure_table_id "CognateTable") by (apply Hhas; set_solver).
    rewrite (ensure_table_id "LanguageTable") by (apply Hhas; set_solver).
    rewrite (ensure_table_id "ParameterTable") by (apply Hhas; set_solver).
    rewrite (insert_id (pruned_objects st) "ParameterTable").
    - apply insert_id. unfold pruned_objects. by rewrite lookup_insert_eq.
    - unfold pruned_objects. rewrite lookup_insert_ne by done.
      by rewrite lookup_insert_eq. }
  assert (finalize (set_objects (pruned_objects st) st)
          = (set_objects (pruned_objects st) st, Ok tt)) as Hagain.
  { rewrite (finalize_run _ Hfin'), Hsame. done. }
  split; [done|].
  unfold __exit__, mbind, M_bind. rewrite Hagain.
  eexists. split; [reflexivity|]. done.
Qed.

End FinalisationClaims.

Lemma sample_store_finalizable : finalizable sample_store = true.
Proof. vm_compute. reflexivity. Qed.

Lemma C3_witness :
  ∃ st', __exit__ sample_store = (st', Ok tt) ∧
    (∀ d, d ∈ table_of st' "LanguageTable" ↔
          d ∈ table_of sample_store "LanguageTable" ∧
          ∃ i f, d !! "ID" = Some i ∧ f ∈ table_of st' "FormTable" ∧
                 f !! "Language_ID" = Some i) ∧
    (∀ d, d ∈ table_of st' "ParameterTable" ↔
          d ∈ table_of sample_store "ParameterTable" ∧
          ∃ i f, d !! "ID" = Some i ∧ f ∈ table_of st' "FormTable" ∧
                 f !! "Parameter_ID" = Some i) ∧
    table_of st' "LanguageTable" `sublist_of` table_of sample_store "LanguageTable" ∧
    table_of st' "ParameterTable" `sublist_of` table_of sample_store "ParameterTable" ∧
    table_of st' "FormTable" = table_of sample_store "FormTable" ∧
    table_of st' "CognateTable" = table_of sample_store "CognateTable" ∧
    last (written st') = Some (objects st').
Proof.
  apply (C3_exit_keeps_only_referenced sample_store).
  vm_compute. reflexivity.
Defined.

(** The scenario of the specification: the unreferenced language [L2] and
    concept [c2] are gone after exit, [L1] and [c1] stay. *)
Example exit_drops_unreferenced :
  let st' := fst (__exit__ sample_store) in
  table_of st' "LanguageTable" = [{[ "ID" := VStr "L1" ]}] ∧
  table_of st' "ParameterTable" = [{[ "ID" := VStr "c1" ]}] ∧
  length (table_of st' "FormTable") = 1%nat ∧
  length (table_of st' "CognateTable") = 1%nat.
Proof. vm_compute. repeat split; reflexivity. Qed.

Lemma C7_witness :
  let st' := fst (finalize sample_store) in
  finalize st' = (st', Ok tt) ∧
  ∃ st'', __exit__ st' = (st'', Ok tt) ∧ objects st'' = objects st'.
Proof.
  apply (C7_finalize_idempotent sample_store).
  vm_compute. reflexivity.
Defined.

(** ** The identifier generators *)

Section GeneratorFacts.

Context {Analysis Sound : Type}.
Implicit Types (st : @Dataset Analysis).

Lemma lexeme_id_run st :
  lexeme_id st = (set_count (_count st + 1) st, Ok (pretty (_count st + 1))).
Proof. done. Qed.

Lemma cognate_id_run st :
  cognate_id st = (set_cognate_count (_cognate_count st + 1) st, Ok (_cognate_count st + 1)).
Proof. done. Qed.

Lemma map_seq_shift {A} (f : nat → A) k :
  map f (seq 2 k) = map (λ n, f (S n)) (seq 1 k).
Proof. by rewrite <- seq_shift, map_map. Qed.

(** From any state, an interleaved run of the two generators returns, per
    generator, the successors of its own counter in order. *)
Lemma run_id_calls_from calls : ∀ st,
  ∃ st' vs, run_id_calls calls st = (st', Ok vs) ∧
    lexeme_ids_of vs
      = map (λ n, pretty (_count st + Z.of_nat n))
            (seq 1 (count_calls Lexeme_id_call calls)) ∧
    cognate_ids_of vs
      = map (λ n, _cognate_count st + Z.of_nat n)
            (seq 1 (count_calls Cognate_id_call calls)).
Proof.
  induction calls as [|c calls IH]; intros st.
  - exists st, []. done.
  - cbn [run_id_calls]. unfold mbind, M_bind. destruct c; cbn [id_call_run].
    + unfold mbind, M_bind, mret, M_ret. rewrite lexeme_id_run. cbn beta iota.
      destruct (IH (set_count (_count st + 1) st)) as (st' & vs & -> & HL & HC).
      exists st', (LexemeId (pretty (_count st + 1)) :: vs).
      split; [done|]. unfold count_calls in *.
      rewrite filter_cons_True by done. rewrite filter_cons_False by done.
      cbn [length seq map]. split.
      * change (lexeme_ids_of (LexemeId ?s :: vs)) with (s :: lexeme_ids_of vs).
        rewrite HL, map_seq_shift. cbn [_count set_count]. f_equal.
        apply map_ext. intros n. f_equal. lia.
      * change (cognate_ids_of (LexemeId ?s :: vs)) with (cognate_ids_of vs).
        by rewrite HC.
    + unfold mbind, M_bind, mret, M_ret. rewrite cognate_id_run. cbn beta iota.
      destruct (IH (set_cognate_count (_cognate_count st + 1) st))
        as (st' & vs & -> & HL & HC).
      exists st', (CognateId (_cognate_count st + 1) :: vs).
      split; [done|]. unfold count_calls in *.
      rewrite filter_cons_False by done. rewrite filter_cons_True by done.
      cbn [length seq map]. split.
      * change (lexeme_ids_of (CognateId ?s :: vs)) with (lexeme_ids_of vs).
        by rewrite HL.
      * change (cognate_ids_of (CognateId ?s :: vs)) with (s :: cognate_ids_of vs).
        rewrite HC, map_seq_shift. cbn [_cognate_count set_cognate_count]. f_equal.
        apply map_ext. intros n. lia.
Qed.

Lemma seq_Z_sorted a k :
  StronglySorted Z.lt (map (λ n, a + Z.of_nat n) (seq 1 k)).
Proof.
  generalize 1%nat. induction k as [|k IH]; intros b; cbn [seq map]; constructor.
  - apply IH.
  - apply Forall_forall. intros z Hz.
    apply list_elem_of_fmap in Hz as (n & -> & Hn).
    apply list_elem_of_In, in_seq in Hn. lia.
Qed.

(** C6. In one session, however the calls to the two generators are
    interleaved, the n-th call of [lexeme_id] returns the decimal text of
    n and the n-th call of [cognate_id] returns the integer n: the lexeme
    identifiers are the texts of 1, 2, ..., k in order, without repeats,
    and the cognate identifiers are 1, 2, ..., m in order, strictly
    increasing; the calls to one generator do not show in the values of
    the other. *)
Theorem C6_identifier_generators (ds : @LexibankDataset Analysis Sound) calls :
  ∃ st' vs, run_id_calls calls (__init__ ds) = (st', Ok vs) ∧
    lexeme_ids_of vs
      = map (λ n, pretty (Z.of_nat n)) (seq 1 (count_calls Lexeme_id_call calls)) ∧
    cognate_ids_of vs
      = map Z.of_nat (seq 1 (count_calls Cognate_id_call calls)) ∧
    NoDup (lexeme_ids_of vs) ∧
    StronglySorted Z.lt (cognate_ids_of vs).
Proof.
  destruct (run_id_calls_from calls (__init__ ds)) as (st' & vs & Hrun & HL & HC).
  cbn [__init__ _count _cognate_count] in HL, HC.
  exists st', vs. split; [done|]. split; [by rewrite HL|]. split; [by rewrite HC|].
  split.
  - rewrite HL. apply NoDup_fmap_2.
    + intros n m H. apply (inj pretty) in H. lia.
    + apply NoDup_ListNoDup, seq_NoDup.
  - rewrite HC. apply seq_Z_sorted.
Qed.

End GeneratorFacts.

(** The first calls in a new session. *)
Example first_identifiers :
  snd (run_id_calls [Lexeme_id_call; Cognate_id_call; Lexeme_id_call; Lexeme_id_call;
                     Cognate_id_call] (__init__ demo))
  = Ok [LexemeId "1"; CognateId 1; LexemeId "2"; LexemeId "3"; CognateId 2].
Proof. vm_compute. reflexivity. Qed.

(** ** White space and stripping *)

Lemma append_cons x (a b : string) : String x a +:+ b = String x (a +:+ b).
Proof. reflexivity. Qed.

Lemma append_nil_l (a : string) : "" +:+ a = a.
Proof. reflexivity. Qed.

Lemma append_assoc (a b c : string) : (a +:+ b) +:+ c = a +:+ (b +:+ c).
Proof. induction a as [|x a IH]; [done|]. rewrite !append_cons. by f_equal. Qed.

Lemma append_nil_r (a : string) : a +:+ "" = a.
Proof. induction a as [|x a IH]; [done|]. rewrite append_cons. by f_equal. Qed.

Lemma append_length (a b : string) :
  String.length (a +:+ b) = (String.length a + String.length b)%nat.
Proof.
  induction a as [|x a IH]; [done|]. rewrite append_cons. cbn [String.length]. by rewrite IH.
Qed.

Lemma append_inv_head w r1 r2 : w +:+ r1 = w +:+ r2 → r1 = r2.
Proof. induction w as [|a w IH]; cbn; [done|]. intros [= H]. by apply IH. Qed.

Lemma without_prefix_Some p s r : without_prefix p s = Some r ↔ s = p +:+ r.
Proof.
  revert s. induction p as [|a p IH]; intros s; cbn.
  - split; [by intros [= ->]|by intros ->].
  - destruct s as [|b s]; [done|].
    destruct (Ascii.eqb_spec a b) as [->|Hab].
    + rewrite IH. split; [by intros ->|by intros [= ->]].
    + split; [done|]. intros [= -> _]. done.
Qed.

Lemma drop_any_Some ws s r :
  drop_any ws s = Some r → ∃ w, w ∈ ws ∧ s = w +:+ r.
Proof.
  induction ws as [|w ws IH]; cbn; [done|].
  destruct (without_prefix w s) as [r'|] eqn:Hw.
  - intros [= ->]. exists w. split; [left|]. by apply without_prefix_Some.
  - intros H. destruct (IH H) as (w' & ? & ?). exists w'. split; [by right|done].
Qed.

Lemma drop_any_None ws s :
  drop_any ws s = None → ∀ w r, w ∈ ws → s ≠ w +:+ r.
Proof.
  induction ws as [|w0 ws IH]; cbn; intros H w r Hin; [by apply elem_of_nil in Hin|].
  destruct (without_prefix w0 s) as [r'|] eqn:Hw; [done|].
  apply elem_of_cons in Hin as [->|Hin].
  - intros Hs. apply without_prefix_Some in Hs. congruence.
  - by apply IH.
Qed.

(** No white-space character has an empty encoding, and none of the
    encodings starts with another. *)
Lemma space_encodings_nonempty w : w ∈ space_encodings → w ≠ "".
Proof.
  assert (Forall (λ w, w ≠ "") space_encodings) as H
    by (unfold space_encodings; cbn; repeat constructor; done).
  rewrite Forall_forall in H. apply H.
Qed.

Lemma comparable_append w1 w2 r1 r2 :
  w1 +:+ r1 = w2 +:+ r2 → comparable w1 w2 = true.
Proof.
  revert w2. induction w1 as [|a w1 IH]; intros [|b w2]; cbn; try done.
  intros [= -> H]. rewrite Ascii.eqb_refl. by apply IH.
Qed.

Lemma space_encodings_prefix_free w1 w2 :
  w1 ∈ space_encodings → w2 ∈ space_encodings → comparable w1 w2 = true → w1 = w2.
Proof.
  assert (forallb (λ x, forallb (λ y, implb (comparable x y) (bool_decide (x = y)))
            space_encodings) space_encodings = true) as Hb by (vm_compute; reflexivity).
  intros H1 H2 Hc. apply list_elem_of_In in H1, H2.
  rewrite forallb_forall in Hb. specialize (Hb w1 H1).
  rewrite forallb_forall in Hb. specialize (Hb w2 H2).
  rewrite Hc in Hb. cbn in Hb. by apply bool_decide_eq_true in Hb.
Qed.

Lemma drop_space_Some s r :
  drop_space s = Some r → ∃ w, w ∈ space_encodings ∧ s = w +:+ r.
Proof. apply drop_any_Some. Qed.

Lemma drop_space_None s :
  drop_space s = None ↔ ∀ w r, w ∈ space_encodings → s ≠ w +:+ r.
Proof.
  split; [apply drop_any_None|]. intros H.
  destruct (drop_space s) as [r|] eqn:Hd; [|done].
  apply drop_space_Some in Hd as (w & Hw & Hs). by destruct (H w r Hw).
Qed.

Lemma drop_space_append w s : w ∈ space_encodings → drop_space (w +:+ s) = Some s.
Proof.
  intros Hw. destruct (drop_space (w +:+ s)) as [r|] eqn:Hd.
  - apply drop_space_Some in Hd as (w' & Hw' & Hs).
    assert (w = w') as <-
      by (apply space_encodings_prefix_free; [done|done|by eapply comparable_append]).
    by apply append_inv_head in Hs as <-.
  - rewrite drop_space_None in Hd. by destruct (Hd w s Hw).
Qed.

Lemma all_space_append l r : all_space l → all_space r → all_space (l +:+ r).
Proof.
  induction 1 as [|w s Hw Hs IH]; intros Hr; [done|].
  rewrite append_assoc. constructor; [done|by apply IH].
Qed.

(** The fuel of [lstrip] is enough: what is left starts with no white
    space, and what went was white space. *)
Lemma lstrip_go_spec n : ∀ s, (String.length s ≤ n)%nat →
  ∃ l, s = l +:+ lstrip_go n s ∧ all_space l ∧ drop_space (lstrip_go n s) = None.
Proof.
  induction n as [|n IH]; intros s Hlen.
  - destruct s; [|cbn in Hlen; lia]. exists "". cbn [lstrip_go].
    split; [done|]. split; [constructor|]. apply drop_space_None.
    intros w r Hw Hs. apply (space_encodings_nonempty w Hw). by destruct w.
  - cbn [lstrip_go]. destruct (drop_space s) as [r|] eqn:Hd.
    + apply drop_space_Some in Hd as (w & Hw & ->).
      pose proof (space_encodings_nonempty w Hw) as Hne.
      destruct (IH r) as (l & Hr & Hl & Hnone).
      { rewrite append_length in Hlen. destruct w; [done|]. cbn in Hlen. lia. }
      exists (w +:+ l). rewrite append_assoc, <- Hr.
      split; [done|]. split; [by constructor|done].
    + exists "". split; [done|]. split; [constructor|done].
Qed.

Lemma lstrip_spec s :
  ∃ l, s = l +:+ lstrip s ∧ all_space l ∧
       ∀ w r, w ∈ space_encodings → lstrip s ≠ w +:+ r.
Proof.
  destruct (lstrip_go_spec (String.length s) s) as (l & ? & ? & Hn); [lia|].
  exists l. split; [done|]. split; [done|]. by apply drop_space_None.
Qed.

Lemma lstrip_go_fuel n : ∀ m s,
  (String.length s ≤ n)%nat → (String.length s ≤ m)%nat → lstrip_go n s = lstrip_go m s.
Proof.
  induction n as [|n IH]; intros m s Hn Hm.
  - destruct s; [|cbn in Hn; lia]. destruct m; [done|]. cbn [lstrip_go].
    destruct (drop_space "") as [r|] eqn:Hd; [|done].
    apply drop_space_Some in Hd as (w & Hw & Hs).
    destruct (space_encodings_nonempty w Hw). by destruct w.
  - cbn [lstrip_go]. destruct (drop_space s) as [r|] eqn:Hd.
    + pose proof Hd as Hd'.
      apply drop_space_Some in Hd' as (w & Hw & ->).
      pose proof (space_encodings_nonempty w Hw) as Hne.
      assert (String.length r < String.length (w +:+ r))%nat as Hlt
        by (rewrite append_length; destruct w; [done|cbn; lia]).
      destruct m as [|m]; [lia|]. cbn [lstrip_go]. rewrite Hd.
      apply IH; lia.
    + destruct m; [done|]. cbn [lstrip_go]. by rewrite Hd.
Qed.

Lemma lstrip_append w s : w ∈ space_encodings → lstrip (w +:+ s) = lstrip s.
Proof.
  intros Hw. unfold lstrip. pose proof (space_encodings_nonempty w Hw) as Hne.
  rewrite append_length.
  destruct (String.length w) as [|k] eqn:Hk; [by destruct w|].
  cbn [Nat.add lstrip_go]. rewrite (drop_space_append w s Hw).
  apply lstrip_go_fuel; lia.
Qed.

(** [lstrip] leaves nothing exactly of the texts that are white space
    throughout. *)
Lemma lstrip_empty_iff s : lstrip s = "" ↔ all_space s.
Proof.
  split.
  - intros H. destruct (lstrip_spec s) as (l & Hs & Hl & _).
    rewrite H, append_nil_r in Hs. by subst.
  - induction 1 as [|w s Hw Hs IH]; [done|]. by rewrite lstrip_append.
Qed.

Lemma rstrip_spec s :
  ∃ r, s = rstrip s +:+ r ∧ all_space r ∧
       ∀ p w, w ∈ space_encodings → rstrip s ≠ p +:+ w.
Proof.
  induction s as [|a s IH].
  - exists "". split; [done|]. split; [constructor|].
    intros p w Hw H. apply (space_encodings_nonempty w Hw).
    destruct p; [done|discriminate].
  - cbn [rstrip]. destruct (String.eqb (lstrip (String a s)) "") eqn:He.
    + apply String.eqb_eq, lstrip_empty_iff in He.
      exists (String a s). split; [done|]. split; [done|].
      intros p w Hw H. apply (space_encodings_nonempty w Hw).
      destruct p; [done|discriminate].
    + apply String.eqb_neq in He.
      destruct IH as (r & Hs & Hr & Hno). exists r.
      split; [rewrite append_cons; by rewrite <- Hs|]. split; [done|].
      intros [|b p] w Hw H.
      * rewrite append_nil_l in H. apply He, lstrip_empty_iff.
        rewrite Hs, <- append_cons, H. by constructor.
      * rewrite append_cons in H. injection H as _ H. by apply (Hno p w Hw).
Qed.

(** [strip] takes the white space off the two ends, all of it and nothing
    else. *)
Lemma strip_spec s : stripped_of s (strip s).
Proof.
  unfold strip.
  destruct (lstrip_spec s) as (l & Hs & Hl & Hlead).
  destruct (rstrip_spec (lstrip s)) as (r & Hm & Hr & Htrail).
  split; [|split].
  - exists l, r. by rewrite <- Hm.
  - intros w r' Hw H. apply (Hlead w (r' +:+ r) Hw).
    by rewrite Hm at 1; rewrite H, append_assoc.
  - done.
Qed.

(** Nothing is left exactly of the texts that are white space throughout. *)
Lemma strip_empty_iff s : strip s = "" ↔ all_space s.
Proof.
  split.
  - intros H. destruct (strip_spec s) as ((l & r & Hs & Hl & Hr) & _).
    rewrite H in Hs. rewrite append_nil_l in Hs. subst. by apply all_space_append.
  - intros H. apply lstrip_empty_iff in H. unfold strip. by rewrite H.
Qed.

(** Blanks, a tab and characters beyond ASCII (a no-break space, an em
    space) at the two ends. *)
Example strip_mixed_white_space :
  strip (" " +:+ no_break_space +:+ "to go" +:+ no_break_space
         +:+ bytes [9; 226; 128; 131]%nat)
  = "to go".
Proof. vm_compute. reflexivity. Qed.

(** ** The lexeme pipeline *)

Section PipelineFacts.

Context {Analysis Sound : Type}.
Implicit Types (st s : @Dataset Analysis) (ds : @LexibankDataset Analysis Sound)
         (kw d : record) (cls : cldf_class).

(** Insertion touches the table map and the index only. *)
Lemma add_object_frame cls kw s :
  let s' := fst (_add_object cls kw s) in
  _count s' = _count s ∧ _cognate_count s' = _cognate_count s ∧
  tr_analyses s' = tr_analyses s ∧ tr_bad_words s' = tr_bad_words s ∧
  tr_invalid_words s' = tr_invalid_words s ∧ printed s' = printed s.
Proof.
  rewrite add_object_prepare.
  destruct (prepare cls kw) as [d|e]; [|done].
  destruct (d !! "ID") as [i|].
  - destruct (_obj_index s !! cldf_table cls) as [idx|]; [|done].
    destruct (bool_decide (i ∉ idx)); [|done].
    by destruct (objects s !! cldf_table cls).
  - by destruct (objects s !! cldf_table cls).
Qed.

(** What the analysis of the segments does, case by case on the outcome
    of [analyze] run on the language's analysis so far. *)
Lemma analyze_lexeme_run ds (kw_ : record) st lang segs form :
  kw_ !! "Language_ID" = Some lang → hashable lang = true →
  kw_ !! "Segments" = Some segs → kw_ !! "Form" = Some form →
  let a := default (new_Analysis ds) (tr_analyses st !! lang) in
  let st1 := set_tr_analyses (<[lang := fst (analyze ds segs a)]> (tr_analyses st)) st in
  analyze_lexeme ds kw_ st =
  match snd (analyze ds segs a) with
  | Ok (_bipa, _sc) =>
      if flagged ds _bipa _sc
      then (set_tr_bad_words (tr_bad_words st ++ [kw_]) st1, Ok tt)
      else (st1, Ok tt)
  | Raise (ValueError _) =>
      (set_tr_invalid_words (tr_invalid_words st ++ [kw_]) st1, Ok tt)
  | Raise KeyError => (set_printed (printed st ++ [(form, kw_)]) st1, Raise KeyError)
  | Raise AttributeError =>
      (set_printed (printed st ++ [(form, kw_)]) st1, Raise AttributeError)
  | Raise TypeError => (st1, Raise TypeError)
  end.
Proof.
  intros Hlang Hhash Hsegs Hform a st1. subst a st1.
  unfold analyze_lexeme, mbind, M_bind, lift, subscript, tr_analyses_setdefault,
    try_except, call_analyze, raise, modify, mret, M_ret, flagged.
  rewrite Hlang, Hhash, Hsegs, Hform.
  destruct (tr_analyses st !! lang) as [a0|] eqn:Ha.
  - change (default (new_Analysis ds) (Some a0)) with a0.
    destruct (analyze ds segs a0) as [a' [[_bipa _sc]|[msg| | |]]]; cbn [fst snd]; try done.
    by destruct (existsb _ _ || _)%bool.
  - change (default (new_Analysis ds) None) with (new_Analysis ds).
    destruct (analyze ds segs (new_Analysis ds)) as [a' [[_bipa _sc]|[msg| | |]]];
      cbn [fst snd tr_analyses set_tr_analyses]; rewrite insert_insert_eq; try done.
    by destruct (existsb _ _ || _)%bool.
Qed.

(** The analysis never touches the counters, the table map or the index. *)
Lemma analyze_lexeme_frame ds (kw_ : record) st :
  let s' := fst (analyze_lexeme ds kw_ st) in
  _count s' = _count st ∧ objects s' = objects st ∧ _obj_index s' = _obj_index st.
Proof.
  unfold analyze_lexeme, mbind, M_bind, lift, subscript, tr_analyses_setdefault,
    try_except, call_analyze, raise, modify, mret, M_ret.
  destruct (kw_ !! "Language_ID") as [lang|]; [|done].
  destruct (hashable lang); [|done].
  destruct (kw_ !! "Segments") as [segs|].
  - destruct (tr_analyses st !! lang) as [a0|].
    + destruct (analyze ds segs a0) as [a' [[_bipa _sc]|[msg| | |]]]; try done.
      * by destruct (existsb _ _ || _)%bool.
      * by destruct (kw_ !! "Form").
      * by destruct (kw_ !! "Form").
    + destruct (analyze ds segs (new_Analysis ds)) as [a' [[_bipa _sc]|[msg| | |]]];
        try done.
      * by destruct (existsb _ _ || _)%bool.
      * by destruct (kw_ !! "Form").
      * by destruct (kw_ !! "Form").
  - destruct (tr_analyses st !! lang) as [a0|]; by destruct (kw_ !! "Form").
Qed.

Lemma stringify_identifier_keeps_text t d key d' k (txt : string) :
  stringify_identifier t d key = Ok d' → d !! k = Some (VStr txt) →
  d' !! k = Some (VStr txt).
Proof.
  intros H Hk. destruct (decide (k = key)) as [->|Hne].
  - unfold stringify_identifier in H. rewrite Hk in H.
    destruct (decide (VStr txt = VNone)); [done|]. cbn [py_format] in H.
    destruct (ID_PATTERN_match txt); [|done]. injection H as <-.
    by rewrite lookup_insert_eq.
  - by rewrite (stringify_identifier_other _ _ _ _ _ H Hne).
Qed.

(** A field that holds text keeps it through the identifier loop. *)
Lemma stringify_identifiers_keeps_text t keys : ∀ d d' k (txt : string),
  stringify_identifiers t d keys = Ok d' → d !! k = Some (VStr txt) →
  d' !! k = Some (VStr txt).
Proof.
  induction keys as [|key keys IH]; intros d d' k txt H Hk; cbn [stringify_identifiers] in H.
  - by injection H as <-.
  - destruct (stringify_identifier t d key) as [d1|e] eqn:H1; [|done].
    apply (IH d1 d' k txt H). by apply (stringify_identifier_keeps_text _ _ _ _ _ _ H1).
Qed.

Lemma prepare_keeps_text cls kw d k (txt : string) :
  keeps_field cls k → prepare cls kw = Ok d → kw !! k = Some (VStr txt) →
  d !! k = Some (VStr txt).
Proof.
  intros Hkeep Hp Hk. unfold prepare in Hp.
  destruct (instantiate cls kw) as [d0|e] eqn:Hi; [|done].
  apply (stringify_identifiers_keeps_text _ _ _ _ _ _ Hp).
  by rewrite (Hkeep kw d0 Hi).
Qed.

Lemma lexeme_kw_ID ds kw form n :
  lexeme_kw ds kw form n !! "ID" = Some (VStr (pretty n)).
Proof. unfold lexeme_kw. rewrite lookup_insert_ne by done. by rewrite lookup_insert_eq. Qed.

Lemma lexeme_kw_Form ds kw form n :
  lexeme_kw ds kw form n !! "Form" = Some (VStr form).
Proof. unfold lexeme_kw. by rewrite lookup_insert_eq. Qed.

Lemma lexeme_kw_Segments ds kw form n :
  is_Some (lexeme_kw ds kw form n !! "Segments").
Proof.
  unfold lexeme_kw, setdefault. rewrite !lookup_insert_ne by done.
  destruct (kw !! "Segments") eqn:H; [by rewrite H; eauto|].
  rewrite lookup_insert_eq. eauto.
Qed.

(** The inner body, step by step. *)
Lemma add_clean_form_run ds kw form s :
  let kw_ := lexeme_kw ds kw form (_count s + 1) in
  let r := _add_object (lexeme_class ds) kw_ (set_count (_count s + 1) s) in
  add_clean_form ds kw form s =
  match snd r with
  | Raise e => (fst r, Raise e)
  | Ok d =>
      if truthy (default VNone (kw_ !! "Segments")) then
        match snd (analyze_lexeme ds kw_ (fst r)) with
        | Ok _ => (fst (analyze_lexeme ds kw_ (fst r)), Ok [d])
        | Raise e => (fst (analyze_lexeme ds kw_ (fst r)), Raise e)
        end
      else (fst r, Ok [d])
  end.
Proof.
  intros kw_ r. subst r. unfold add_clean_form. fold (lexeme_kw ds kw form).
  unfold mbind at 1. unfold M_bind at 1. rewrite lexeme_id_run.
  change (VStr (pretty (_count s + 1))) with (VStr (py_format (VInt (_count s + 1)))).
  fold (lexeme_kw ds kw form (_count s + 1)). fold kw_.
  unfold mbind, M_bind, lift, subscript, mret, M_ret.
  destruct (_add_object (lexeme_class ds) kw_ (set_count (_count s + 1) s))
    as [s2 [d|e]]; cbn [fst snd]; [|done].
  destruct (lexeme_kw_Segments ds kw form (_count s + 1)) as [segs Hsegs].
  fold kw_ in Hsegs. rewrite Hsegs.
  change (default VNone (Some segs)) with segs.
  destruct (truthy segs); [|done].
  by destruct (analyze_lexeme ds kw_ s2) as [s3 [[]|e]].
Qed.

End PipelineFacts.

Section PipelineClaims.

Context {Analysis Sound : Type}.
Implicit Types (st s : @Dataset Analysis) (ds : @LexibankDataset Analysis Sound)
         (kw d : record) (cls : cldf_class).

(** C4. Routing by the outcome of the segment analysis.  Take a cleaned,
    non-empty form whose record [d] passes construction and the
    identifier check, with a fresh lexeme ID and truthy Segments; let
    [kw_] be the keyword dictionary of the lexeme.  Then [d] is appended
    to the form table whatever the analysis does, and:
    - when [analyze] returns and a sound is an [UnknownSound] or a sound
      class is ["?"], [kw_] is appended to [tr_bad_words] (otherwise no
      bucket changes), and the call returns the record;
    - when [analyze] raises [ValueError], [kw_] is appended to
      [tr_invalid_words], and the call returns the record;
    - when [analyze] raises [KeyError] or [AttributeError], the form and
      [kw_] are printed and the same exception is raised again;
    - any other exception goes through without a report. *)
Theorem C4_segment_analysis_routing ds kw form st d idx l segs lang :
  let T := cldf_table (lexeme_class ds) in
  let n := _count st + 1 in
  let kw_ := lexeme_kw ds kw form n in
  prepare (lexeme_class ds) kw_ = Ok d →
  d !! "ID" = Some (VStr (pretty n)) →
  _obj_index st !! T = Some idx →
  VStr (pretty n) ∉ idx →
  objects st !! T = Some l →
  kw_ !! "Segments" = Some segs →
  truthy segs = true →
  kw_ !! "Language_ID" = Some lang →
  hashable lang = true →
  let a := default (new_Analysis ds) (tr_analyses st !! lang) in
  let st' := fst (add_clean_form ds kw form st) in
  let res := snd (add_clean_form ds kw form st) in
  objects st' !! T = Some (l ++ [d]) ∧
  match snd (analyze ds segs a) with
  | Ok (_bipa, _sc) =>
      res = Ok [d] ∧
      tr_bad_words st'
        = (if flagged ds _bipa _sc then tr_bad_words st ++ [kw_] else tr_bad_words st) ∧
      tr_invalid_words st' = tr_invalid_words st ∧
      printed st' = printed st
  | Raise (ValueError _) =>
      res = Ok [d] ∧
      tr_invalid_words st' = tr_invalid_words st ++ [kw_] ∧
      tr_bad_words st' = tr_bad_words st ∧
      printed st' = printed st
  | Raise KeyError =>
      res = Raise KeyError ∧
      printed st' = printed st ++ [(VStr form, kw_)] ∧
      tr_bad_words st' = tr_bad_words st ∧
      tr_invalid_words st' = tr_invalid_words st
  | Raise AttributeError =>
      res = Raise AttributeError ∧
      printed st' = printed st ++ [(VStr form, kw_)] ∧
      tr_bad_words st' = tr_bad_words st ∧
      tr_invalid_words st' = tr_invalid_words st
  | Raise TypeError =>
      res = Raise TypeError ∧
      printed st' = printed st ∧
      tr_bad_words st' = tr_bad_words st ∧
      tr_invalid_words st' = tr_invalid_words st
  end.
Proof.
  intros T n kw_ Hp Hid Hidx Hfresh Hl Hsegs Htruthy Hlang Hhash a st' res.
  subst st' res. rewrite add_clean_form_run. fold n. fold kw_.
  rewrite (add_object_fresh (set_count n st) (lexeme_class ds) kw_ d
             (VStr (pretty n)) idx l Hp Hid Hidx Hfresh Hl).
  cbn [fst snd]. rewrite Hsegs. change (default VNone (Some segs)) with segs.
  rewrite Htruthy.
  rewrite (analyze_lexeme_run ds kw_ _ lang segs (VStr form) Hlang Hhash Hsegs
             (lexeme_kw_Form ds kw form n)).
  cbn [tr_analyses set_objects set_obj_index set_count]. fold a.
  destruct (analyze ds segs a) as [a' [[_bipa _sc]|[msg| | |]]]; cbn [fst snd].
  - destruct (flagged ds _bipa _sc); cbn; by rewrite lookup_insert_eq.
  - cbn. by rewrite lookup_insert_eq.
  - cbn. by rewrite lookup_insert_eq.
  - cbn. by rewrite lookup_insert_eq.
  - cbn. by rewrite lookup_insert_eq.
Qed.

End PipelineClaims.

Lemma C4_witness :
  let st := __init__ demo_analysed in
  let kw_ := lexeme_kw demo_analysed (demo_row "unk") "unk" 1 in
  let st' := fst (add_clean_form demo_analysed (demo_row "unk") "unk" st) in
  let res := snd (add_clean_form demo_analysed (demo_row "unk") "unk" st) in
  objects st' !! "FormTable" = Some ([] ++ [kw_]) ∧
  res = Ok [kw_] ∧
  tr_bad_words st' = [] ++ [kw_] ∧
  tr_invalid_words st' = [] ∧
  printed st' = [].
Proof.
  apply (C4_segment_analysis_routing demo_analysed (demo_row "unk") "unk"
           (__init__ demo_analysed)
           (lexeme_kw demo_analysed (demo_row "unk") "unk" 1)
           ∅ [] (VList ["unk"]) (VStr "L1")).
  - vm_compute. reflexivity.
  - vm_compute. reflexivity.
  - vm_compute. reflexivity.
  - vm_compute. intros H. discriminate H.
  - vm_compute. reflexivity.
  - vm_compute. reflexivity.
  - reflexivity.
  - vm_compute. reflexivity.
  - reflexivity.
Defined.

(** The four routes on whole rows: a flagged lexeme, an invalid one, a
    fatal lookup error, and a clean lexeme.  Each time: what the call
    answers, the form table, the two buckets and the printed output. *)
Example route_flagged :
  let r := add_lexemes demo_analysed (demo_row "unk") (__init__ demo_analysed) in
  let kw_ := lexeme_kw demo_analysed (demo_row "unk") "unk" 1 in
  (snd r, table_of (fst r) "FormTable",
   tr_bad_words (fst r), tr_invalid_words (fst r), printed (fst r))
  = (Ok [kw_], [kw_], [kw_], [], []).
Proof. vm_compute. reflexivity. Qed.

Example route_invalid :
  let r := add_lexemes demo_analysed (demo_row "bad") (__init__ demo_analysed) in
  let kw_ := lexeme_kw demo_analysed (demo_row "bad") "bad" 1 in
  (snd r, table_of (fst r) "FormTable",
   tr_bad_words (fst r), tr_invalid_words (fst r), printed (fst r))
  = (Ok [kw_], [kw_], [], [kw_], []).
Proof. vm_compute. reflexivity. Qed.

Example route_fatal :
  let r := add_lexemes demo_analysed (demo_row "key") (__init__ demo_analysed) in
  let kw_ := lexeme_kw demo_analysed (demo_row "key") "key" 1 in
  (snd r, table_of (fst r) "FormTable",
   tr_bad_words (fst r), tr_invalid_words (fst r), printed (fst r))
  = (Raise KeyError, [kw_], [], [], [(VStr "key", kw_)]).
Proof. vm_compute. reflexivity. Qed.

Example route_clean :
  let r := add_lexemes demo_analysed (demo_row "ma") (__init__ demo_analysed) in
  let kw_ := lexeme_kw demo_analysed (demo_row "ma") "ma" 1 in
  (snd r, table_of (fst r) "FormTable",
   tr_bad_words (fst r), tr_invalid_words (fst r), printed (fst r))
  = (Ok [kw_], [kw_], [], [], []).
Proof. vm_compute. reflexivity. Qed.

Section LexemeListClaims.

Context {Analysis Sound : Type}.
Implicit Types (st s : @Dataset Analysis) (ds : @LexibankDataset Analysis Sound)
         (kw d : record) (cls : cldf_class).

Lemma set_debug_log_same s : set_debug_log (debug_log s ++ []) s = s.
Proof. rewrite app_nil_r. by destruct s. Qed.

(** The part of the loop body in front of the inner [if form:] writes
    debug messages at most. *)
Lemma add_lexeme_form_cases ds kw form st v :
  kw !! "Value" = Some v →
  ∃ msgs, let s1 := set_debug_log (debug_log st ++ msgs) st in
    add_lexeme_form ds kw form st =
    if String.eqb form "" then (st, Ok [])
    else if String.eqb (strip (clean_form ds kw form)) "" then (s1, Ok [])
    else add_clean_form ds kw (strip (clean_form ds kw form)) s1.
Proof.
  intros Hv. unfold add_lexeme_form.
  destruct (String.eqb form "") eqn:Hform; [by exists []|].
  unfold mbind, M_bind, lift, subscript, log_debug, modify, mret, M_ret. rewrite Hv.
  destruct (decide (VStr form = v));
    destruct (String.eqb (clean_form ds kw form) form);
    cbn [debug_log set_debug_log].
  - exists []. cbn zeta. rewrite set_debug_log_same.
    by destruct (String.eqb (strip (clean_form ds kw form)) "").
  - eexists [_]. cbn zeta.
    by destruct (String.eqb (strip (clean_form ds kw form)) "").
  - eexists [_]. cbn zeta.
    by destruct (String.eqb (strip (clean_form ds kw form)) "").
  - rewrite <- app_assoc. cbn [app]. eexists [_; _]. cbn zeta.
    by destruct (String.eqb (strip (clean_form ds kw form)) "").
Qed.

(** A successful run of the inner body stores one record under the next
    lexeme ID. *)
Lemma add_clean_form_ok ds kw form s s' recs :
  keeps_field (lexeme_class ds) "ID" →
  keeps_field (lexeme_class ds) "Form" →
  lexeme_ids_unused s (cldf_table (lexeme_class ds)) →
  add_clean_form ds kw form s = (s', Ok recs) →
  ∃ d, recs = [d] ∧
       d !! "Form" = Some (VStr form) ∧
       d !! "ID" = Some (VStr (pretty (_count s + 1))) ∧
       _count s' = _count s + 1 ∧
       table_of s' (cldf_table (lexeme_class ds))
         = table_of s (cldf_table (lexeme_class ds)) ++ [d] ∧
       lexeme_ids_unused s' (cldf_table (lexeme_class ds)).
Proof.
  intros HkID HkForm Hunused. rewrite add_clean_form_run.
  set (n := _count s + 1). set (kw_ := lexeme_kw ds kw form n).
  set (T := cldf_table (lexeme_class ds)) in *.
  pose proof (add_object_frame (lexeme_class ds) kw_ (set_count n s)) as Hframe.
  destruct (_add_object (lexeme_class ds) kw_ (set_count n s)) as [s2 [d|e]] eqn:Hadd;
    cbn [fst snd] in *; [|done].
  destruct Hframe as (Hcount & _).
  apply add_object_ok in Hadd as [Hp Hcases]. fold T in Hcases.
  assert (d !! "ID" = Some (VStr (pretty n))) as Hid
    by (apply (prepare_keeps_text (lexeme_class ds) kw_); [done|done|apply lexeme_kw_ID]).
  assert (d !! "Form" = Some (VStr form)) as Hform
    by (apply (prepare_keeps_text (lexeme_class ds) kw_); [done|done|apply lexeme_kw_Form]).
  assert (VStr (pretty n) ∉ index_of s T) as Hfresh by (apply Hunused; lia).
  destruct Hcases as [(i & Hi & Hseen & _) | (_ & Htab & Hidx & _)].
  { rewrite Hid in Hi. injection Hi as <-. done. }
  specialize (Hidx _ Hid).
  assert (∀ s3, _count s3 = _count s2 → objects s3 = objects s2 →
            _obj_index s3 = _obj_index s2 →
            _count s3 = _count s + 1 ∧ table_of s3 T = table_of s T ++ [d] ∧
            lexeme_ids_unused s3 T) as Hfinal.
  { intros s3 Hc Ho Hi. split; [by rewrite Hc, Hcount|]. split.
    - unfold table_of. rewrite Ho. apply Htab.
    - intros m Hm. unfold index_of. rewrite Hi. fold (index_of s2 T). rewrite Hidx.
      rewrite Hc, Hcount in Hm. cbn [_count set_count] in Hm.
      rewrite elem_of_union, elem_of_singleton. intros [Heq | Hin].
      + injection Heq as Heq. apply (inj pretty) in Heq. lia.
      + apply (Hunused m); [lia | done]. }
  destruct (truthy (default VNone (kw_ !! "Segments"))).
  - pose proof (analyze_lexeme_frame ds kw_ s2) as (Hc & Ho & Hi).
    destruct (analyze_lexeme ds kw_ s2) as [s3 [[]|e]]; cbn [fst snd] in *; [|done].
    intros [= <- <-]. exists d. destruct (Hfinal s3 Hc Ho Hi) as (? & ? & ?). done.
  - intros [= <- <-]. exists d. destruct (Hfinal s2 eq_refl eq_refl eq_refl) as (? & ? & ?).
    done.
Qed.

Lemma kept_forms_cons ds kw c cands :
  kept_forms ds kw (c :: cands) =
  if String.eqb c "" then kept_forms ds kw cands
  else if String.eqb (strip (clean_form ds kw c)) "" then kept_forms ds kw cands
  else strip (clean_form ds kw c) :: kept_forms ds kw cands.
Proof.
  unfold kept_forms. rewrite filter_cons.
  destruct (String.eqb c "") eqn:Hc.
  - apply String.eqb_eq in Hc. by rewrite decide_False by (by intros H).
  - apply String.eqb_neq in Hc. rewrite decide_True by done.
    cbn [map]. rewrite filter_cons.
    destruct (String.eqb (strip (clean_form ds kw c)) "") eqn:Hf.
    + apply String.eqb_eq in Hf. by rewrite decide_False by (by intros H).
    + apply String.eqb_neq in Hf. by rewrite decide_True by done.
Qed.

(** The kept forms, said without [strip]. *)
Lemma kept_forms_kept_of ds kw cands : kept_of ds kw cands (kept_forms ds kw cands).
Proof.
  induction cands as [|c cands IH]; [apply kept_of_nil|]. rewrite kept_forms_cons.
  destruct (String.eqb c "") eqn:Hc.
  - apply String.eqb_eq in Hc. apply kept_of_skip; [by left|done].
  - apply String.eqb_neq in Hc.
    destruct (String.eqb (strip (clean_form ds kw c)) "") eqn:Hf.
    + apply String.eqb_eq, strip_empty_iff in Hf. apply kept_of_skip; [by right|done].
    + apply String.eqb_neq in Hf. apply kept_of_take; [done| |apply strip_spec|done].
      intros Ha. apply Hf. by apply strip_empty_iff.
Qed.

(** The loop over the candidates. *)
Lemma add_lexemes_loop_ok ds kw v cands : ∀ st lexemes st' recs,
  keeps_field (lexeme_class ds) "ID" →
  keeps_field (lexeme_class ds) "Form" →
  kw !! "Value" = Some v →
  lexeme_ids_unused st (cldf_table (lexeme_class ds)) →
  add_lexemes_loop ds kw cands lexemes st = (st', Ok recs) →
  ∃ new, recs = lexemes ++ new ∧
    map (λ d, d !! "Form") new = map (λ f, Some (VStr f)) (kept_forms ds kw cands) ∧
    map (λ d, d !! "ID") new
      = map (λ n, Some (VStr (pretty (_count st + Z.of_nat n))))
            (seq 1 (length (kept_forms ds kw cands))) ∧
    table_of st' (cldf_table (lexeme_class ds))
      = table_of st (cldf_table (lexeme_class ds)) ++ new ∧
    _count st' = _count st + Z.of_nat (length (kept_forms ds kw cands)).
Proof.
  induction cands as [|c cands IH]; intros st lexemes st' recs HkID HkForm Hv Hunused.
  - cbn [add_lexemes_loop]. intros [= <- <-]. exists [].
    rewrite !app_nil_r. cbn. split; [done|]. split; [done|]. split; [done|]. split; [done|].
    lia.
  - cbn [add_lexemes_loop]. unfold mbind at 1. unfold M_bind at 1.
    destruct (add_lexeme_form_cases ds kw c st v Hv) as [msgs Hcases].
    cbn zeta in Hcases. rewrite Hcases, kept_forms_cons. clear Hcases.
    set (s1 := set_debug_log (debug_log st ++ msgs) st).
    assert (lexeme_ids_unused s1 (cldf_table (lexeme_class ds))) as Hunused1 by done.
    destruct (String.eqb c "").
    { intros Hloop. rewrite app_nil_r in Hloop.
      by apply (IH st lexemes st' recs). }
    destruct (String.eqb (strip (clean_form ds kw c)) "").
    { intros Hloop. rewrite app_nil_r in Hloop.
      destruct (IH s1 lexemes st' recs HkID HkForm Hv Hunused1 Hloop)
        as (new & ? & ? & ? & ? & ?).
      by exists new. }
    destruct (add_clean_form ds kw (strip (clean_form ds kw c)) s1)
      as [s2 [one|e]] eqn:Hone; [|done].
    intros Hloop.
    destruct (add_clean_form_ok ds kw _ s1 s2 one HkID HkForm Hunused1 Hone)
      as (d & -> & HdF & HdI & Hc2 & Ht2 & Hunused2).
    destruct (IH s2 (lexemes ++ [d]) st' recs HkID HkForm Hv Hunused2 Hloop)
      as (new & -> & HF & HI & Ht & Hc).
    exists (d :: new). rewrite <- app_assoc. split; [done|].
    cbn [map length seq]. rewrite HdF, HdI, HF, HI.
    change (_count s1) with (_count st) in *. change (table_of s1) with (table_of st) in *.
    split; [done|]. split; [|split].
    + rewrite map_seq_shift. f_equal; try (repeat f_equal; lia).
      apply map_ext. intros n. rewrite Hc2. do 3 f_equal. lia.
    + rewrite Ht, Ht2. by rewrite <- app_assoc.
    + rewrite Hc, Hc2. lia.
Qed.

(** C5. A returning call of [add_lexemes] on a raw row makes lexemes of
    exactly the split candidates that are non-empty and still non-empty
    after cleaning and stripping: the records it returns carry these forms
    in split order, their IDs are the next values of the lexeme counter in
    that order, they are the records appended to the form table, and the
    counter has advanced by their number (possibly zero).  The forms are
    pinned down without [strip]: in split order, a candidate that is
    empty, or white space throughout once cleaned, gives none, and every
    other gives its cleaned text without the white space (of Unicode) at
    its two ends. *)
Theorem C5_add_lexemes_creates_kept_forms ds kw v st st' recs :
  keeps_field (lexeme_class ds) "ID" →
  keeps_field (lexeme_class ds) "Form" →
  lexeme_ids_unused st (cldf_table (lexeme_class ds)) →
  kw !! "Value" = Some v →
  add_lexemes ds kw st = (st', Ok recs) →
  let forms := kept_forms ds kw (split_forms ds kw v) in
  map (λ d, d !! "Form") recs = map (λ f, Some (VStr f)) forms ∧
  map (λ d, d !! "ID") recs
    = map (λ n, Some (VStr (pretty (_count st + Z.of_nat n)))) (seq 1 (length forms)) ∧
  table_of st' (cldf_table (lexeme_class ds))
    = table_of st (cldf_table (lexeme_class ds)) ++ recs ∧
  _count st' = _count st + Z.of_nat (length forms) ∧
  kept_of ds kw (split_forms ds kw v) forms.
Proof.
  intros HkID HkForm Hunused Hv. unfold add_lexemes, mbind, M_bind, lift, subscript.
  rewrite Hv. intros Hloop.
  destruct (add_lexemes_loop_ok ds kw v _ st [] st' recs HkID HkForm Hv Hunused Hloop)
    as (new & -> & HF & HI & Ht & Hc).
  cbn zeta. split; [done|]. split; [done|]. split; [done|]. split; [done|].
  apply kept_forms_kept_of.
Qed.

End LexemeListClaims.

Lemma plain_class_keeps t k : keeps_field (plain_class t) k.
Proof. intros kw d H. cbn in H. by injection H as <-. Qed.

Lemma init_ids_unused {Analysis Sound : Type} (ds : @LexibankDataset Analysis Sound) t :
  lexeme_ids_unused (__init__ ds) t.
Proof.
  intros n _. unfold index_of. cbn [__init__ _obj_index].
  rewrite init_tables_default. apply not_elem_of_empty.
Qed.

Lemma C5_witness :
  let st' := fst (add_lexemes demo walk_row (__init__ demo)) in
  map (λ d : record, d !! "Form") walk_records
    = map (λ f, Some (VStr f)) ["to go"; "to walk"] ∧
  map (λ d : record, d !! "ID") walk_records
    = map (λ n, Some (VStr (pretty (0 + Z.of_nat n)))) (seq 1 2) ∧
  table_of st' "FormTable" = [] ++ walk_records ∧
  _count st' = 0 + Z.of_nat 2 ∧
  kept_of demo walk_row (split_forms demo walk_row (VStr "to go; to walk"))
    ["to go"; "to walk"].
Proof.
  apply (C5_add_lexemes_creates_kept_forms demo walk_row (VStr "to go; to walk")
           (__init__ demo) _ walk_records).
  - apply plain_class_keeps.
  - apply plain_class_keeps.
  - apply init_ids_unused.
  - vm_compute. reflexivity.
  - vm_compute. reflexivity.
Defined.

(** The scenario of the specification: ["to go; to walk"] cut at [;] in a
    new session gives two lexemes with the forms ["to go"] and
    ["to walk"] and the IDs ["1"] and ["2"]. *)
Example to_go_to_walk :
  let r := add_lexemes demo walk_row (__init__ demo) in
  (snd r, table_of (fst r) "FormTable",
   map (λ d : record, (d !! "Form", d !! "ID")) walk_records)
  = (Ok walk_records, walk_records,
     [ (Some (VStr "to go"), Some (VStr "1"));
       (Some (VStr "to walk"), Some (VStr "2")) ]).
Proof. vm_compute. reflexivity. Qed.

(** Candidates that are empty, or blank once cleaned, make no lexeme and
    use up no identifier. *)
Example blank_candidates_are_dropped :
  let r := add_lexemes demo (demo_row " ;;ma;  ") (__init__ demo) in
  (snd r, _count (fst r))
  = (Ok [lexeme_kw demo (demo_row " ;;ma;  ") "ma" 1], 1).
Proof. vm_compute. reflexivity. Qed.

(** White space beyond ASCII goes as well: of ["ma"] with a no-break
    space behind it and a second candidate that is a no-break space, one
    lexeme is made, with the form ["ma"]. *)
Example no_break_space_is_stripped :
  let r := add_lexemes demo no_break_row (__init__ demo) in
  (snd r, _count (fst r))
  = (Ok [lexeme_kw demo no_break_row "ma" 1], 1).
Proof. vm_compute. reflexivity. Qed.

(** ** What the identifier check accepts and refuses *)

(** X1. The texts that [ID_PATTERN.match] accepts are exactly the
    non-empty texts of letters, digits, [_] and [-], and such a text
    followed by one newline. *)
Theorem accepted_identifier_texts (s : string) :
  ID_PATTERN_match s = true ↔
  is_identifier s = true ∨ ∃ p, s = p +:+ nl ∧ is_identifier p = true.
Proof. apply ID_PATTERN_match_spec. Qed.

(** X2. An insert whose record has, in [ID], [Language_ID],
    [Parameter_ID] or [Cognateset_ID], a value other than [None] whose
    text [ID_PATTERN.match] rejects raises [ValueError] and leaves the
    whole state as it was. *)
Theorem malformed_identifier_refused {Analysis : Type} (st : @Dataset Analysis)
    cls kw d key v :
  instantiate cls kw = Ok d →
  key ∈ id_keys →
  d !! key = Some v →
  v ≠ VNone →
  ID_PATTERN_match (py_format v) = false →
  ∃ msg, _add_object cls kw st = (st, Raise (ValueError msg)).
Proof. apply add_object_rejects. Qed.

(** ** Integers as identifiers *)

Lemma pretty_N_char_id_char x : id_char (pretty_N_char x) = true.
Proof. unfold pretty_N_char. by repeat case_match. Qed.

Lemma pretty_N_go_id_chars x : ∀ s,
  all_id_chars s = true → all_id_chars (pretty_N_go x s) = true.
Proof.
  induction (N.lt_wf_0 x) as [x _ IH]; intros s Hs.
  assert (x = 0 ∨ 0 < x)%N as [->|Hx] by lia.
  - by rewrite pretty_N_go_0.
  - rewrite pretty_N_go_step by done. apply IH.
    + by apply N.div_lt.
    + cbn [all_id_chars]. by rewrite pretty_N_char_id_char, Hs.
Qed.

Lemma pretty_N_go_nonempty x : ∀ s, s ≠ "" → pretty_N_go x s ≠ "".
Proof.
  induction (N.lt_wf_0 x) as [x _ IH]; intros s Hs.
  assert (x = 0 ∨ 0 < x)%N as [->|Hx] by lia.
  - by rewrite pretty_N_go_0.
  - rewrite pretty_N_go_step by done. apply IH; [by apply N.div_lt | done].
Qed.

Lemma pretty_N_is_identifier (x : N) : is_identifier (pretty x) = true.
Proof.
  unfold pretty, pretty_N. case_decide as Hx; [done|].
  assert (0 < x)%N as Hpos by lia.
  assert (pretty_N_go x "" ≠ "") as Hne.
  { rewrite pretty_N_go_step by done. by apply pretty_N_go_nonempty. }
  unfold is_identifier. destruct (pretty_N_go x "") eqn:Hp; [done|].
  rewrite <- Hp. by apply pretty_N_go_id_chars.
Qed.

(** X3. Every integer passes the identifier check once it is turned into
    text: the digits are identifier characters and so is the sign of a
    negative number. *)
Theorem integer_identifier_accepted (z : Z) :
  is_identifier (py_format (VInt z)) = true ∧
  ID_PATTERN_match (py_format (VInt z)) = true.
Proof.
  assert (is_identifier (py_format (VInt z)) = true) as H.
  { cbn [py_format]. unfold pretty, pretty_Z. destruct z as [|p|p]; [done| |].
    - apply (pretty_N_is_identifier (Npos p)).
    - pose proof (pretty_N_is_identifier (Npos p)) as Hp.
      change (pretty p) with (pretty (Npos p)).
      unfold is_identifier in *. cbn. destruct (pretty (N.pos p)); [done|]. done. }
  split; [done|]. by apply is_identifier_match.
Qed.

(** ** Invariants of the record store *)

Section StoreInvariants.

Context {Analysis Sound : Type}.
Implicit Types (st : @Dataset Analysis) (d kw : record) (cls : cldf_class)
         (i : value) (t : string).

(** What the identifier loop does to each field. *)
Lemma stringify_identifiers_fields t keys : ∀ d d',
  NoDup keys →
  stringify_identifiers t d keys = Ok d' →
  (∀ k, k ∉ keys → d' !! k = d !! k) ∧
  (∀ k, k ∈ keys →
     match d !! k with
     | None => d' !! k = None
     | Some v =>
         if decide (v = VNone) then d' !! k = Some VNone
         else d' !! k = Some (VStr (py_format v)) ∧
              ID_PATTERN_match (py_format v) = true
     end).
Proof.
  induction keys as [|key keys IH]; intros d d' Hnd H; cbn [stringify_identifiers] in H.
  - injection H as <-. split; [done|]. intros k Hk. by apply elem_of_nil in Hk.
  - apply NoDup_cons in Hnd as [Hkey Hnd].
    destruct (stringify_identifier t d key) as [d1|e] eqn:H1; [|done].
    destruct (IH d1 d' Hnd H) as [Hout Hin]. split.
    + intros k Hk. apply not_elem_of_cons in Hk as [Hne Hk].
      rewrite (Hout k Hk). by apply (stringify_identifier_other _ _ _ _ _ H1).
    + intros k Hk. apply elem_of_cons in Hk as [-> | Hk].
      * rewrite (Hout key Hkey). unfold stringify_identifier in H1.
        destruct (d !! key) as [v|] eqn:Hv; [|by injection H1 as <-].
        destruct (decide (v = VNone)) as [->|Hn]; [by injection H1 as <-|].
        destruct (ID_PATTERN_match (py_format v)); [|done].
        injection H1 as <-. by rewrite lookup_insert_eq.
      * assert (k ≠ key) as Hne by (intros ->; done).
        specialize (Hin k Hk).
        by rewrite (stringify_identifier_other _ _ _ _ _ H1 Hne) in Hin.
Qed.

Lemma add_object_identifier_fields st cls kw st' d :
  _add_object cls kw st = (st', Ok d) →
  ∃ d0, instantiate cls kw = Ok d0 ∧
    (∀ k, k ∈ id_keys → identifier_field (d !! k)) ∧
    (∀ k v, k ∈ id_keys → d0 !! k = Some v → v ≠ VNone →
       d !! k = Some (VStr (py_format v))) ∧
    (∀ k, k ∉ id_keys → d !! k = d0 !! k).
Proof.
  intros Hadd. apply add_object_ok in Hadd as [Hp _]. unfold prepare in Hp.
  destruct (instantiate cls kw) as [d0|e]; [|done]. exists d0. split; [done|].
  destruct (stringify_identifiers_fields _ _ _ _ id_keys_NoDup Hp) as [Hout Hin].
  split; [|split; [|done]].
  - intros k Hk. specialize (Hin k Hk). unfold identifier_field.
    destruct (d0 !! k) as [v|]; [|by left].
    destruct (decide (v = VNone)); [by right; left|].
    destruct Hin as [Hd Hm]. right; right. eauto.
  - intros k v Hk Hv Hn. specialize (Hin k Hk). rewrite Hv in Hin.
    destruct (decide (v = VNone)); [done|]. by destruct Hin.
Qed.

(** X4. The record that a successful insert returns has, in each of the
    four identifier fields, nothing, [None], or the text of the value it
    was given, a text accepted by the pattern; every other field is as the
    constructor left it. *)
Theorem inserted_identifiers_are_text st cls kw st' d :
  _add_object cls kw st = (st', Ok d) →
  ∃ d0, instantiate cls kw = Ok d0 ∧
    (∀ k, k ∈ id_keys → identifier_field (d !! k)) ∧
    (∀ k v, k ∈ id_keys → d0 !! k = Some v → v ≠ VNone →
       d !! k = Some (VStr (py_format v))) ∧
    (∀ k, k ∉ id_keys → d !! k = d0 !! k).
Proof. apply add_object_identifier_fields. Qed.

(** The identifier loop accepts, and leaves as it is, a record it has
    already been through. *)
Lemma stringify_identifiers_again t keys d :
  (∀ k, k ∈ keys → identifier_field (d !! k)) →
  stringify_identifiers t d keys = Ok d.
Proof.
  induction keys as [|key keys IH]; intros Hall; cbn [stringify_identifiers]; [done|].
  assert (stringify_identifier t d key = Ok d) as ->.
  { unfold stringify_identifier.
    destruct (Hall key) as [Hk | [Hk | (s & Hk & Hm)]]; [left| | |]; rewrite Hk; try done.
    cbn [py_format]. destruct (decide (VStr s = VNone)); [done|]. rewrite Hm.
    by rewrite insert_id. }
  apply IH. intros k Hk. apply Hall. by right.
Qed.

(** X5. Inserting again what an insert returned.  When the returned
    record has an ID field and a class takes the record as it is,
    inserting that record into the same table right away is a suppressed
    duplicate: no error, the same record back, the state unchanged.  (A
    record without an ID field is appended once more, see
    [add_object_prepare].) *)
Theorem reinsert_returned_record st cls kw st' d cls' :
  _add_object cls kw st = (st', Ok d) →
  cldf_table cls' = cldf_table cls →
  instantiate cls' d = Ok d →
  is_Some (d !! "ID") →
  _add_object cls' d st' = (st', Ok d).
Proof.
  intros Hadd Ht Hinst [i Hi].
  destruct (add_object_identifier_fields _ _ _ _ _ Hadd) as (d0 & _ & Hfields & _).
  apply add_object_ok in Hadd as [_ Hcases].
  apply (add_object_duplicate st' cls' d d i); [|done|].
  - unfold prepare. rewrite Hinst. by apply stringify_identifiers_again.
  - rewrite Ht. destruct Hcases as [(i0 & Hi0 & Hseen & ->) | (_ & _ & Hidx & _)].
    + rewrite Hi in Hi0. by injection Hi0 as <-.
    + rewrite (Hidx i Hi). apply elem_of_union_l. by apply elem_of_singleton.
Qed.

(** An insert call changes what is stored under an identifier in one way
    only: it puts a first record where there was none. *)
Lemma add_object_stored st cls kw t i :
  store_consistent st →
  let st' := fst (_add_object cls kw st) in
  stored st' t i = stored st t i ∨
  (stored st t i = [] ∧ ∃ d, stored st' t i = [d]).
Proof.
  intros Hc. rewrite add_object_prepare.
  destruct (prepare cls kw) as [d1|e]; [|by left].
  destruct (d1 !! "ID") as [i1|] eqn:Hid.
  - destruct (_obj_index st !! cldf_table cls) as [idx|] eqn:Hidx; [|by left].
    case_bool_decide as Hi1; [|by left].
    destruct (objects st !! cldf_table cls) as [l|] eqn:Hl; cbn [fst]; [|by left].
    unfold stored, table_of. cbn [objects set_objects].
    destruct (decide (cldf_table cls = t)) as [<-|Hne];
      [|left; by rewrite lookup_insert_ne].
    rewrite lookup_insert_eq, Hl. cbn [from_option id]. rewrite filter_app.
    destruct (decide (i1 = i)) as [->|Hi].
    + right. assert (stored st (cldf_table cls) i = []) as Hnone.
      { apply stored_unseen; [done|]. unfold index_of. by rewrite Hidx. }
      unfold stored, table_of in Hnone. rewrite Hl in Hnone. cbn [from_option id] in Hnone.
      rewrite Hnone. split; [done|]. exists d1.
      rewrite filter_cons_True, filter_nil; [done|].
      unfold has_id. by rewrite bool_decide_eq_true.
    + left. rewrite filter_cons_False, filter_nil, app_nil_r; [done|].
      unfold has_id. rewrite Hid, bool_decide_eq_true. by intros [= ->].
  - destruct (objects st !! cldf_table cls) as [l|] eqn:Hl; cbn [fst]; [|by left].
    left. unfold stored, table_of. cbn [objects set_objects].
    destruct (decide (cldf_table cls = t)) as [<-|Hne]; [|by rewrite lookup_insert_ne].
    rewrite lookup_insert_eq, Hl. cbn [from_option id].
    rewrite filter_app, filter_cons_False, filter_nil, app_nil_r; [done|].
    unfold has_id. by rewrite Hid, bool_decide_eq_true.
Qed.

Lemma insert_all_invariant calls : ∀ st,
  store_consistent st →
  (∀ t i, (length (stored st t i) ≤ 1)%nat) →
  store_consistent (insert_all calls st) ∧
  ∀ t i, (length (stored (insert_all calls st) t i) ≤ 1)%nat.
Proof.
  induction calls as [|[cls kw] calls IH]; intros st Hc Hu; [done|].
  cbn [insert_all]. apply IH.
  - by apply add_object_consistent.
  - intros t i. destruct (add_object_stored st cls kw t i Hc) as [-> | [_ [d ->]]];
      [apply Hu | cbn; lia].
Qed.

(** X6. Identifiers are unique within a table.  In the store of a session,
    after any sequence of insert calls, every stored record that has an ID
    has it in the index of its table, and no two records of one table have
    the same ID. *)
Theorem session_ids_unique (ds : @LexibankDataset Analysis Sound) calls :
  store_consistent (session_store ds calls) ∧
  ∀ t i, (length (stored (session_store ds calls) t i) ≤ 1)%nat.
Proof.
  apply insert_all_invariant.
  - apply init_consistent.
  - intros t i. unfold stored, table_of. cbn [__init__ objects].
    rewrite init_tables_default. cbn. lia.
Qed.

(** Insert calls never remove a table from the table map or the index. *)
Lemma add_object_keeps_tables st cls kw t :
  is_Some (objects st !! t) → is_Some (_obj_index st !! t) →
  let st' := fst (_add_object cls kw st) in
  is_Some (objects st' !! t) ∧ is_Some (_obj_index st' !! t).
Proof.
  intros Ho Hi. rewrite add_object_prepare.
  destruct (prepare cls kw) as [d1|e]; [|done].
  assert (∀ {V} (m : gmap string V) t0 v, is_Some (m !! t) → is_Some (<[t0 := v]> m !! t))
    as Hins.
  { intros V m t0 v Hm. destruct (decide (t0 = t)) as [->|Hne].
    - rewrite lookup_insert_eq. eauto.
    - by rewrite lookup_insert_ne. }
  destruct (d1 !! "ID") as [i1|].
  - destruct (_obj_index st !! cldf_table cls) as [idx|]; [|done].
    destruct (bool_decide (i1 ∉ idx)); [|done].
    destruct (objects st !! cldf_table cls) as [l|]; cbn; split; auto.
  - destruct (objects st !! cldf_table cls) as [l|]; cbn; split; auto.
Qed.

Lemma insert_all_keeps_tables calls : ∀ st t,
  is_Some (objects st !! t) → is_Some (_obj_index st !! t) →
  is_Some (objects (insert_all calls st) !! t) ∧
  is_Some (_obj_index (insert_all calls st) !! t).
Proof.
  induction calls as [|[cls kw] calls IH]; intros st t Ho Hi; [done|].
  cbn [insert_all]. destruct (add_object_keeps_tables st cls kw t Ho Hi). by apply IH.
Qed.

Lemma init_tables_is_Some {V} (ds : @LexibankDataset Analysis Sound) (v : V) t :
  t ∈ class_tables ds → is_Some (init_tables ds v !! t).
Proof.
  intros Ht. unfold init_tables, class_tables in *.
  repeat (rewrite lookup_insert; case_decide; [eauto|]).
  repeat (apply elem_of_cons in Ht as [-> | Ht]; [done|]).
  by apply elem_of_nil in Ht.
Qed.

(** X7. In a session the store never refuses a record of a table that
    [__init__] has set up: whether an insert raises, and what it returns,
    is decided by the constructor and the identifier check alone, not by
    what was inserted before. *)
Theorem session_insert_outcome (ds : @LexibankDataset Analysis Sound) calls cls kw :
  cldf_table cls ∈ class_tables ds →
  snd (_add_object cls kw (session_store ds calls)) = prepare cls kw.
Proof.
  intros Ht. unfold session_store.
  destruct (insert_all_keeps_tables calls (__init__ ds) (cldf_table cls))
    as [[l Hl] [idx Hidx]].
  { cbn [__init__ objects]. by apply init_tables_is_Some. }
  { cbn [__init__ _obj_index]. by apply init_tables_is_Some. }
  rewrite add_object_prepare, Hl, Hidx.
  destruct (prepare cls kw) as [d|e]; [|done].
  destruct (d !! "ID") as [i|]; [|done]. by destruct (bool_decide (i ∉ idx)).
Qed.

End StoreInvariants.

(** ** More on finalisation *)

Section FinalisationMore.

Context {Analysis : Type}.
Implicit Types (st s : @Dataset Analysis) (d kw : record) (cls : cldf_class).

Lemma collect_refs_raises fk forms : ∀ acc e,
  collect_refs fk forms acc = Raise e → e = KeyError ∨ e = TypeError.
Proof.
  induction forms as [|f forms IH]; intros acc e H; cbn [collect_refs] in H; [done|].
  destruct (f !! fk) as [v|]; [|injection H as <-; by left].
  destruct (hashable v); [by apply (IH _ _ H) | injection H as <-; by right].
Qed.

Lemma keep_referenced_raises refs objs e :
  keep_referenced refs objs = Raise e → e = KeyError ∨ e = TypeError.
Proof.
  induction objs as [|d objs IH]; intros H; cbn [keep_referenced] in H; [done|].
  destruct (d !! "ID") as [i|]; [|injection H as <-; by left].
  destruct (hashable i); [|injection H as <-; by right].
  destruct (keep_referenced refs objs) as [kept|e']; [done|].
  injection H as <-. by apply IH.
Qed.

(** One round of the pruning loop touches the table map only, and raises
    nothing but [KeyError] and [TypeError]. *)
Lemma prune_frame fk table s :
  let r := prune fk table s in
  written (fst r) = written s ∧ _obj_index (fst r) = _obj_index s ∧
  (∀ e, snd r = Raise e → (e = KeyError ∨ e = TypeError) ∧ fst r = s).
Proof.
  cbv zeta. unfold prune, mbind, M_bind, subscript, lift, modify.
  destruct (objects s !! "FormTable") as [forms|];
    [|cbn; split; [done|]; split; [done|]; intros e' [= <-]; split; [by left | done]].
  destruct (collect_refs fk forms ∅) as [refs|e0] eqn:Hc.
  2: { cbn. split; [done|]. split; [done|]. intros e' [= <-].
       split; [by apply (collect_refs_raises _ _ _ _ Hc) | done]. }
  destruct (objects s !! table) as [objs|];
    [|cbn; split; [done|]; split; [done|]; intros e' [= <-]; split; [by left | done]].
  destruct (keep_referenced refs objs) as [kept|e0] eqn:Hk; [done|].
  cbn. split; [done|]. split; [done|]. intros e' [= <-].
  split; [by apply (keep_referenced_raises _ _ _ Hk) | done].
Qed.

(** The pruning part of [__exit__] never touches the index or what was
    written, and fails with [KeyError] or [TypeError] only. *)
Lemma finalize_frame st :
  let r := finalize st in
  written (fst r) = written st ∧ _obj_index (fst r) = _obj_index st ∧
  (∀ e, snd r = Raise e → e = KeyError ∨ e = TypeError).
Proof.
  cbv zeta. unfold finalize, mbind, M_bind. rewrite !setdefault_table_run.
  match goal with
  | |- context [prune "Parameter_ID" "ParameterTable" ?s] => set (s1 := s)
  end.
  assert (written s1 = written st ∧ _obj_index s1 = _obj_index st) as [Hw0 Hi0] by done.
  pose proof (prune_frame "Parameter_ID" "ParameterTable" s1) as (Hw1 & Hi1 & He1).
  destruct (prune "Parameter_ID" "ParameterTable" s1) as [s2 [[]|e1]]; cbn [fst snd] in *.
  - pose proof (prune_frame "Language_ID" "LanguageTable" s2) as (Hw2 & Hi2 & He2).
    destruct (prune "Language_ID" "LanguageTable" s2) as [s3 [[]|e2]]; cbn [fst snd] in *.
    + split; [by rewrite Hw2, Hw1|]. split; [by rewrite Hi2, Hi1 | done].
    + split; [by rewrite Hw2, Hw1|]. split; [by rewrite Hi2, Hi1|].
      intros e [= <-]. by destruct (He2 e2 eq_refl).
  - split; [done|]. split; [done|]. intros e [= <-]. by destruct (He1 e1 eq_refl).
Qed.

(** X8. A store that cannot be finalised is never written.  When a form
    record lacks [Language_ID] or [Parameter_ID], a language or concept
    record lacks [ID], or one of these values is unhashable, [__exit__]
    raises [KeyError] or [TypeError] and [write] is not reached. *)
Theorem exit_failure_writes_nothing st :
  finalizable st = false →
  ∃ st1 e, __exit__ st = (st1, Raise e) ∧ (e = KeyError ∨ e = TypeError) ∧
           written st1 = written st.
Proof.
  intros Hfin. unfold __exit__, mbind, M_bind.
  pose proof (finalize_frame st) as (Hw & _ & He).
  destruct (finalize st) as [s1 [[]|e]] eqn:Hrun; cbn [fst snd] in *.
  - rewrite (finalize_inv st s1 Hrun) in Hfin. done.
  - exists s1, e. split; [done|]. split; [by apply He | done].
Qed.

Lemma exit_inv st st' :
  __exit__ st = (st', Ok tt) →
  finalizable st = true ∧
  st' = set_written (written st ++ [pruned_objects st]) (set_objects (pruned_objects st) st).
Proof.
  unfold __exit__, mbind, M_bind. intros H.
  destruct (finalize st) as [s1 [[]|e]] eqn:Hrun; [|done].
  pose proof (finalize_inv st s1 Hrun) as Hfin. split; [done|].
  rewrite (finalize_run st Hfin) in Hrun. injection Hrun as <-.
  unfold write, modify in H. by injection H as <-.
Qed.

(** X9. What pruning drops stays out.  [__exit__] leaves the index as it
    is, so after it an insert with any ID seen before is suppressed: a
    language or concept dropped by the pruning is not stored again. *)
Theorem pruned_records_stay_out st st' cls kw d i :
  __exit__ st = (st', Ok tt) →
  prepare cls kw = Ok d →
  d !! "ID" = Some i →
  i ∈ index_of st (cldf_table cls) →
  _obj_index st' = _obj_index st ∧
  _add_object cls kw st' = (st', Ok d).
Proof.
  intros Hexit Hp Hid Hseen. apply exit_inv in Hexit as [_ ->].
  split; [done|]. by apply (add_object_duplicate _ cls kw d i).
Qed.

(** X10. Pruning goes by the literal table names.  After [__exit__] the
    four tables [FormTable], [CognateTable], [LanguageTable] and
    [ParameterTable] exist in the table map, one table map more was
    written, and every table under another name than [LanguageTable] and
    [ParameterTable] is as it was. *)
Theorem exit_tables st st' :
  __exit__ st = (st', Ok tt) →
  (∀ t, t ∈ ["FormTable"; "CognateTable"; "LanguageTable"; "ParameterTable"] →
        is_Some (objects st' !! t)) ∧
  (∀ t, t ≠ "LanguageTable" → t ≠ "ParameterTable" → table_of st' t = table_of st t) ∧
  written st' = written st ++ [objects st'].
Proof.
  intros Hexit. apply exit_inv in Hexit as [_ ->]. split; [|split; [|done]].
  - intros t Ht. cbn [objects set_written set_objects]. unfold pruned_objects.
    destruct (decide (t = "LanguageTable")) as [->|HL]; [rewrite lookup_insert_eq; eauto|].
    rewrite lookup_insert_ne by done.
    destruct (decide (t = "ParameterTable")) as [->|HP]; [rewrite lookup_insert_eq; eauto|].
    rewrite lookup_insert_ne by done. rewrite ensured_lookup by done. eauto.
  - intros t HL HP. change (table_of (set_written ?w ?s)) with (table_of s).
    rewrite table_of_pruned. by rewrite !decide_False by done.
Qed.

End FinalisationMore.

(** ** Invariants of the lexeme pipeline *)

Section PipelineInvariants.

Context {Analysis Sound : Type}.
Implicit Types (st s : @Dataset Analysis) (ds : @LexibankDataset Analysis Sound)
         (kw d : record) (cls : cldf_class).

(** A property of the state that the debug log does not matter for and
    that the inner body keeps holds after [add_lexemes], whether the call
    returns or raises. *)
Lemma add_lexemes_invariant (P : @Dataset Analysis → Prop) ds kw :
  (∀ s msgs, P s → P (set_debug_log (debug_log s ++ msgs) s)) →
  (∀ s f, P s → P (fst (add_clean_form ds kw f s))) →
  ∀ st, P st → P (fst (add_lexemes ds kw st)).
Proof.
  intros Hlog Hbody st HP. unfold add_lexemes, mbind, M_bind, lift, subscript.
  destruct (kw !! "Value") as [v|] eqn:Hv; [|done].
  generalize (@nil record) as lexemes. revert st HP.
  induction (split_forms ds kw v) as [|c cands IH]; intros st HP lexemes; [done|].
  cbn [add_lexemes_loop]. unfold mbind at 1. unfold M_bind at 1.
  destruct (add_lexeme_form_cases ds kw c st v Hv) as [msgs Hcases].
  cbn zeta in Hcases. rewrite Hcases. clear Hcases.
  destruct (String.eqb c ""); [by apply IH|].
  specialize (Hlog st msgs HP).
  destruct (String.eqb (strip (clean_form ds kw c)) ""); [by apply IH|].
  specialize (Hbody _ (strip (clean_form ds kw c)) Hlog).
  destruct (add_clean_form ds kw _ _) as [s2 [one|e]]; cbn [fst] in *; [|done].
  by apply IH.
Qed.

Lemma lexeme_kw_other ds kw form n k :
  k ≠ "Form" → k ≠ "ID" → k ≠ "Segments" → lexeme_kw ds kw form n !! k = kw !! k.
Proof.
  intros HF HI HS. unfold lexeme_kw, setdefault. rewrite !lookup_insert_ne by done.
  destruct (kw !! "Segments"); [done|]. by rewrite lookup_insert_ne.
Qed.

Lemma lexeme_kw_Segments_value ds kw form n :
  lexeme_kw ds kw form n !! "Segments"
  = Some (match kw !! "Segments" with
          | Some v => v
          | None => py_or (tokenize ds kw form) (VList [])
          end).
Proof.
  unfold lexeme_kw, setdefault. rewrite !lookup_insert_ne by done.
  destruct (kw !! "Segments") eqn:H; [done|]. by rewrite lookup_insert_eq.
Qed.

(** The analysis of a lexeme touches the analysis state of the lexeme's
    own language only. *)
Lemma analyze_lexeme_other_language ds (kw_ : record) st lang' :
  kw_ !! "Language_ID" ≠ Some lang' →
  tr_analyses (fst (analyze_lexeme ds kw_ st)) !! lang' = tr_analyses st !! lang'.
Proof.
  intros Hne.
  unfold analyze_lexeme, mbind, M_bind, lift, subscript, tr_analyses_setdefault,
    try_except, call_analyze, raise, modify, mret, M_ret.
  destruct (kw_ !! "Language_ID") as [lang|]; [|done].
  assert (lang ≠ lang') as Hl by (intros ->; done).
  destruct (hashable lang); [|done].
  destruct (kw_ !! "Segments") as [segs|].
  - destruct (tr_analyses st !! lang) as [a0|].
    + destruct (analyze ds segs a0) as [a' [[_bipa _sc]|[msg| | |]]];
        try (destruct (existsb _ _ || _)%bool);
        try (destruct (kw_ !! "Form"));
        cbn; by rewrite ?lookup_insert_ne.
    + destruct (analyze ds segs (new_Analysis ds)) as [a' [[_bipa _sc]|[msg| | |]]];
        try (destruct (existsb _ _ || _)%bool);
        try (destruct (kw_ !! "Form"));
        cbn; by rewrite ?lookup_insert_ne.
  - destruct (tr_analyses st !! lang) as [a0|]; destruct (kw_ !! "Form");
      cbn; by rewrite ?lookup_insert_ne.
Qed.

(** X11. Analysis states are kept apart by language.  Whatever
    [add_lexemes] does with a row, and whether it returns or raises, the
    running analysis of every language other than the row's own
    [Language_ID] is as before. *)
Theorem add_lexemes_other_languages ds kw st lang' :
  kw !! "Language_ID" ≠ Some lang' →
  tr_analyses (fst (add_lexemes ds kw st)) !! lang' = tr_analyses st !! lang'.
Proof.
  intros Hne.
  apply (add_lexemes_invariant
           (λ s, tr_analyses s !! lang' = tr_analyses st !! lang') ds kw); [done| |done].
  intros s f Hs. rewrite add_clean_form_run.
  set (kw_ := lexeme_kw ds kw f (_count s + 1)).
  pose proof (add_object_frame (lexeme_class ds) kw_ (set_count (_count s + 1) s))
    as (_ & _ & Htr & _).
  cbn [tr_analyses set_count] in Htr.
  destruct (_add_object (lexeme_class ds) kw_ (set_count (_count s + 1) s))
    as [s2 [d|e]]; cbn [fst snd] in *; [|by rewrite Htr, Hs].
  destruct (truthy (default VNone (kw_ !! "Segments")));
    cbn [fst snd]; [|by rewrite Htr, Hs].
  assert (kw_ !! "Language_ID" ≠ Some lang') as Hne'
    by (unfold kw_; by rewrite lexeme_kw_other).
  pose proof (analyze_lexeme_other_language ds kw_ s2 lang' Hne') as Ha.
  destruct (analyze_lexeme ds kw_ s2) as [s3 [[]|e]]; cbn [fst snd] in *;
    by rewrite Ha, Htr, Hs.
Qed.

(** X12. Without segments there is no analysis.  When no tokenizer is
    configured and the row brings no truthy [Segments], [add_lexemes]
    never calls the analyser: the analysis states, both diagnostic buckets
    and the printed output are as before, whatever else happens. *)
Theorem add_lexemes_without_segments ds kw st :
  tokenizer ds = None →
  truthy (kw_get kw "Segments") = false →
  let st' := fst (add_lexemes ds kw st) in
  tr_analyses st' = tr_analyses st ∧
  tr_bad_words st' = tr_bad_words st ∧
  tr_invalid_words st' = tr_invalid_words st ∧
  printed st' = printed st.
Proof.
  intros Htok Hsegs.
  apply (add_lexemes_invariant
           (λ s, tr_analyses s = tr_analyses st ∧ tr_bad_words s = tr_bad_words st ∧
                 tr_invalid_words s = tr_invalid_words st ∧ printed s = printed st)
           ds kw); [done| |done].
  intros s f (H1 & H2 & H3 & H4). rewrite add_clean_form_run.
  set (kw_ := lexeme_kw ds kw f (_count s + 1)).
  pose proof (add_object_frame (lexeme_class ds) kw_ (set_count (_count s + 1) s))
    as (_ & _ & Htr & Hbad & Hinv & Hpr).
  cbn [tr_analyses tr_bad_words tr_invalid_words printed set_count] in Htr, Hbad, Hinv, Hpr.
  assert (truthy (default VNone (kw_ !! "Segments")) = false) as ->.
  { unfold kw_. rewrite lexeme_kw_Segments_value. unfold kw_get in Hsegs.
    destruct (kw !! "Segments") as [v|]; [done|].
    unfold tokenize. by rewrite Htok. }
  destruct (_add_object (lexeme_class ds) kw_ (set_count (_count s + 1) s))
    as [s2 [d|e]]; cbn [fst snd] in *;
    by rewrite Htr, Hbad, Hinv, Hpr, H1, H2, H3, H4.
Qed.

(** What one insert leaves in a table: what was there, and at most one
    record more at the end. *)
Lemma add_object_appends st cls kw t :
  table_of st t `prefix_of` table_of (fst (_add_object cls kw st)) t.
Proof.
  rewrite add_object_prepare.
  destruct (prepare cls kw) as [d1|e]; [|done].
  assert (∀ l, objects st !! cldf_table cls = Some l →
            table_of st t `prefix_of`
            default [] (<[cldf_table cls := l ++ [d1]]> (objects st) !! t)) as Happ.
  { intros l Hl. unfold table_of. destruct (decide (cldf_table cls = t)) as [<-|Hne].
    - rewrite lookup_insert_eq, Hl. by apply prefix_app_r.
    - by rewrite lookup_insert_ne. }
  destruct (d1 !! "ID") as [i1|].
  - destruct (_obj_index st !! cldf_table cls) as [idx|]; [|done].
    destruct (bool_decide (i1 ∉ idx)); [|done].
    destruct (objects st !! cldf_table cls) as [l|]; [|done]. by apply Happ.
  - destruct (objects st !! cldf_table cls) as [l|]; [|done]. by apply Happ.
Qed.

Lemma add_object_other_table st cls kw t :
  t ≠ cldf_table cls → table_of (fst (_add_object cls kw st)) t = table_of st t.
Proof.
  intros Hne. rewrite add_object_prepare.
  destruct (prepare cls kw) as [d1|e]; [|done].
  destruct (d1 !! "ID") as [i1|].
  - destruct (_obj_index st !! cldf_table cls) as [idx|]; [|done].
    destruct (bool_decide (i1 ∉ idx)); [|done].
    destruct (objects st !! cldf_table cls) as [l|]; [|done].
    unfold table_of. cbn. by rewrite lookup_insert_ne.
  - destruct (objects st !! cldf_table cls) as [l|]; [|done].
    unfold table_of. cbn. by rewrite lookup_insert_ne.
Qed.

Lemma analyze_lexeme_appends ds (kw_ : record) st :
  let s' := fst (analyze_lexeme ds kw_ st) in
  tr_bad_words st `prefix_of` tr_bad_words s' ∧
  tr_invalid_words st `prefix_of` tr_invalid_words s' ∧
  printed st `prefix_of` printed s'.
Proof.
  cbv zeta.
  unfold analyze_lexeme, mbind, M_bind, lift, subscript, tr_analyses_setdefault,
    try_except, call_analyze, raise, modify, mret, M_ret.
  destruct (kw_ !! "Language_ID") as [lang|]; [|done].
  destruct (hashable lang); [|done].
  destruct (kw_ !! "Segments") as [segs|].
  - destruct (tr_analyses st !! lang) as [a0|].
    + destruct (analyze ds segs a0) as [a' [[_bipa _sc]|[msg| | |]]];
        try (destruct (existsb _ _ || _)%bool);
        try (destruct (kw_ !! "Form"));
        cbn; repeat split; try done; by apply prefix_app_r.
    + destruct (analyze ds segs (new_Analysis ds)) as [a' [[_bipa _sc]|[msg| | |]]];
        try (destruct (existsb _ _ || _)%bool);
        try (destruct (kw_ !! "Form"));
        cbn; repeat split; try done; by apply prefix_app_r.
  - destruct (tr_analyses st !! lang) as [a0|]; destruct (kw_ !! "Form");
      cbn; repeat split; try done; by apply prefix_app_r.
Qed.

(** X13. [add_lexemes] only ever appends.  Whether the call returns or
    raises, the form table, both diagnostic buckets and the printed output
    afterwards start with what they held before, every other table is
    unchanged, and the lexeme counter has not gone down. *)
Theorem add_lexemes_appends_only ds kw st :
  let st' := fst (add_lexemes ds kw st) in
  (∀ t, table_of st t `prefix_of` table_of st' t) ∧
  (∀ t, t ≠ cldf_table (lexeme_class ds) → table_of st' t = table_of st t) ∧
  tr_bad_words st `prefix_of` tr_bad_words st' ∧
  tr_invalid_words st `prefix_of` tr_invalid_words st' ∧
  printed st `prefix_of` printed st' ∧
  _count st ≤ _count st'.
Proof.
  apply (add_lexemes_invariant
           (λ s, (∀ t, table_of st t `prefix_of` table_of s t) ∧
                 (∀ t, t ≠ cldf_table (lexeme_class ds) → table_of s t = table_of st t) ∧
                 tr_bad_words st `prefix_of` tr_bad_words s ∧
                 tr_invalid_words st `prefix_of` tr_invalid_words s ∧
                 printed st `prefix_of` printed s ∧
                 _count st ≤ _count s) ds kw).
  - done.
  - intros s f (Ht & Ho & Hb & Hi & Hp & Hc). rewrite add_clean_form_run.
    set (n := _count s + 1). set (kw_ := lexeme_kw ds kw f n).
    pose proof (add_object_frame (lexeme_class ds) kw_ (set_count n s))
      as (Hcount & _ & _ & Hbad & Hinv & Hpr).
    cbn [_count tr_bad_words tr_invalid_words printed set_count] in Hcount, Hbad, Hinv, Hpr.
    pose proof (add_object_appends (set_count n s) (lexeme_class ds) kw_) as Happ.
    pose proof (add_object_other_table (set_count n s) (lexeme_class ds) kw_) as Hoth.
    assert (∀ s3, _count s3 = n → objects s3 = objects (fst (_add_object (lexeme_class ds) kw_ (set_count n s))) →
              tr_bad_words s `prefix_of` tr_bad_words s3 →
              tr_invalid_words s `prefix_of` tr_invalid_words s3 →
              printed s `prefix_of` printed s3 →
              (∀ t, table_of st t `prefix_of` table_of s3 t) ∧
              (∀ t, t ≠ cldf_table (lexeme_class ds) → table_of s3 t = table_of st t) ∧
              tr_bad_words st `prefix_of` tr_bad_words s3 ∧
              tr_invalid_words st `prefix_of` tr_invalid_words s3 ∧
              printed st `prefix_of` printed s3 ∧
              _count st ≤ _count s3) as Hfinal.
    { intros s3 Hc3 Ho3 Hb3 Hi3 Hp3.
      assert (∀ t, table_of s3 t
                   = table_of (fst (_add_object (lexeme_class ds) kw_ (set_count n s))) t)
        as Htab by (intros t; unfold table_of; by rewrite Ho3).
      split; [|split; [|split; [|split; [|split]]]].
      - intros t. rewrite Htab. etrans; [apply Ht|]. apply (Happ t).
      - intros t Hne. rewrite Htab, (Hoth t Hne). by apply Ho.
      - by etrans.
      - by etrans.
      - by etrans.
      - rewrite Hc3. unfold n. lia. }
    destruct (_add_object (lexeme_class ds) kw_ (set_count n s)) as [s2 [d|e]];
      cbn [fst snd] in *.
    + destruct (truthy (default VNone (kw_ !! "Segments"))).
      * pose proof (analyze_lexeme_frame ds kw_ s2) as (Hc3 & Ho3 & _).
        pose proof (analyze_lexeme_appends ds kw_ s2) as (Hb3 & Hi3 & Hp3).
        rewrite Hbad in Hb3. rewrite Hinv in Hi3. rewrite Hpr in Hp3.
        destruct (analyze_lexeme ds kw_ s2) as [s3 [[]|e]]; cbn [fst snd] in *;
          apply Hfinal; rewrite ?Hc3, ?Hcount; done.
      * cbn [fst]. apply Hfinal; rewrite ?Hbad, ?Hinv, ?Hpr, ?Hcount; done.
    + apply Hfinal; rewrite ?Hbad, ?Hinv, ?Hpr, ?Hcount; done.
  - repeat split; done.
Qed.

End PipelineInvariants.

(** ** Invariants of the counters *)

Section CounterInvariants.

Context {Analysis Sound : Type}.
Implicit Types (st s : @Dataset Analysis) (ds : @LexibankDataset Analysis Sound)
         (kw d : record) (cls : cldf_class).

(** What an insert of a record with a known text ID can add to an
    index. *)
Lemma add_object_index_grows st cls kw (txt : string) t x :
  keeps_field cls "ID" →
  kw !! "ID" = Some (VStr txt) →
  x ∈ index_of (fst (_add_object cls kw st)) t →
  x = VStr txt ∨ x ∈ index_of st t.
Proof.
  intros Hkeep Hid. rewrite add_object_prepare.
  destruct (prepare cls kw) as [d1|e] eqn:Hp; [|by right].
  rewrite (prepare_keeps_text cls kw d1 "ID" txt Hkeep Hp Hid).
  destruct (_obj_index st !! cldf_table cls) as [idx|] eqn:Hidx; [|by right].
  destruct (bool_decide (VStr txt ∉ idx)); [|by right].
  assert (x ∈ default ∅ (<[cldf_table cls:={[VStr txt]} ∪ idx]> (_obj_index st) !! t) →
          x = VStr txt ∨ x ∈ index_of st t) as Hgrow.
  { unfold index_of. destruct (decide (cldf_table cls = t)) as [<-|Hne].
    - rewrite lookup_insert_eq, Hidx. cbn [from_option id].
      rewrite elem_of_union, elem_of_singleton. tauto.
    - rewrite lookup_insert_ne by done. by right. }
  by destruct (objects st !! cldf_table cls).
Qed.

Lemma add_clean_form_unused ds kw f s :
  keeps_field (lexeme_class ds) "ID" →
  lexeme_ids_unused s (cldf_table (lexeme_class ds)) →
  lexeme_ids_unused (fst (add_clean_form ds kw f s)) (cldf_table (lexeme_class ds)).
Proof.
  intros Hkeep Hunused. rewrite add_clean_form_run.
  set (n := _count s + 1). set (kw_ := lexeme_kw ds kw f n).
  set (T := cldf_table (lexeme_class ds)) in *.
  pose proof (add_object_frame (lexeme_class ds) kw_ (set_count n s)) as (Hcount & _).
  cbn [_count set_count] in Hcount.
  pose proof (λ x, add_object_index_grows (set_count n s) (lexeme_class ds) kw_
                     (pretty n) T x Hkeep (lexeme_kw_ID ds kw f n)) as Hgrow.
  assert (∀ s3, _count s3 = n →
            _obj_index s3
            = _obj_index (fst (_add_object (lexeme_class ds) kw_ (set_count n s))) →
            lexeme_ids_unused s3 T) as Hfinal.
  { intros s3 Hc3 Hi3 m Hm Hin. rewrite Hc3 in Hm.
    unfold index_of in Hin. rewrite Hi3 in Hin.
    destruct (Hgrow _ Hin) as [Heq | Hold].
    - injection Heq as Heq. apply (inj pretty) in Heq. lia.
    - apply (Hunused m); [unfold n in Hm; lia | done]. }
  destruct (_add_object (lexeme_class ds) kw_ (set_count n s)) as [s2 [d|e]];
    cbn [fst snd] in *; [|by apply Hfinal].
  destruct (truthy (default VNone (kw_ !! "Segments"))); [|by apply Hfinal].
  pose proof (analyze_lexeme_frame ds kw_ s2) as (Hc3 & _ & Hi3).
  destruct (analyze_lexeme ds kw_ s2) as [s3 [[]|e]]; cbn [fst snd] in *;
    apply Hfinal; by rewrite ?Hc3.
Qed.

(** X14. Fresh lexeme identifiers throughout a session.  With a lexeme
    class that shows the ID as passed, after any number of [add_lexemes]
    calls on a new [Dataset], returning or raising, no identifier that
    the lexeme counter has yet to produce is in the index of the form
    table: the next lexemes are never taken for duplicates. *)
Theorem lexeme_ids_stay_unused ds rows :
  keeps_field (lexeme_class ds) "ID" →
  lexeme_ids_unused (add_lexemes_rows ds rows (__init__ ds))
                    (cldf_table (lexeme_class ds)).
Proof.
  intros Hkeep. unfold add_lexemes_rows.
  assert (∀ st, lexeme_ids_unused st (cldf_table (lexeme_class ds)) →
            lexeme_ids_unused (foldl (λ s kw, fst (add_lexemes ds kw s)) st rows)
                              (cldf_table (lexeme_class ds))) as Hall.
  { induction rows as [|kw rows IH]; intros st Hst; [done|].
    cbn [foldl]. apply IH.
    apply (add_lexemes_invariant
             (λ s, lexeme_ids_unused s (cldf_table (lexeme_class ds))) ds kw);
      [done| |done].
    intros s f Hs. by apply add_clean_form_unused. }
  apply Hall. apply init_ids_unused.
Qed.

Lemma setdefault_lookup_eq k v (m : record) :
  setdefault k v m !! k = Some (default v (m !! k)).
Proof.
  unfold setdefault. destruct (m !! k) eqn:H; [by rewrite H|].
  by rewrite lookup_insert_eq.
Qed.

Lemma setdefault_lookup_ne k k' v (m : record) :
  k' ≠ k → setdefault k v m !! k' = m !! k'.
Proof.
  intros Hne. unfold setdefault. destruct (m !! k); [done|].
  by rewrite lookup_insert_ne.
Qed.

(** The keyword dictionary that [add_cognate] hands to the store. *)
Lemma add_cognate_run ds lexeme kw st :
  lexeme_usable lexeme →
  ∃ kw', add_cognate ds lexeme kw st
         = _add_object (cognate_class ds) kw'
             (set_cognate_count (_cognate_count st + 1) st) ∧
    kw' !! "ID" = Some (default (VInt (_cognate_count st + 1)) (kw !! "ID")) ∧
    (∀ lex i f, lexeme = Some lex → lex ≠ ∅ → lex !! "ID" = Some i →
       lex !! "Form" = Some f →
       kw' !! "Form_ID" = Some (default i (kw !! "Form_ID")) ∧
       kw' !! "Form" = Some (default f (kw !! "Form"))).
Proof.
  intros Hlex. unfold add_cognate.
  destruct lexeme as [lex|]; cbn [lexeme_usable] in Hlex.
  - destruct (decide (lex = ∅)) as [->|Hne].
    + eexists. unfold mbind, M_bind, mret, M_ret. rewrite cognate_id_run.
      split; [reflexivity|]. split; [apply setdefault_lookup_eq|]. by intros ? ? ? [= <-].
    + destruct Hlex as [->|[[i Hi] [f Hf]]]; [done|].
      eexists. unfold mbind, M_bind, mret, M_ret, lift, subscript.
      rewrite Hi, Hf, cognate_id_run. split; [reflexivity|].
      split.
      * rewrite setdefault_lookup_eq. by rewrite !setdefault_lookup_ne by done.
      * intros lex' i' f' [= <-] _ Hi' Hf'.
        rewrite Hi in Hi'. rewrite Hf in Hf'. injection Hi' as <-. injection Hf' as <-.
        split.
        -- rewrite !setdefault_lookup_ne by done. apply setdefault_lookup_eq.
        -- rewrite setdefault_lookup_ne by done. rewrite setdefault_lookup_eq.
           by rewrite setdefault_lookup_ne by done.
  - eexists. unfold mbind, M_bind, mret, M_ret. rewrite cognate_id_run.
    split; [reflexivity|]. split; [apply setdefault_lookup_eq|]. by intros.
Qed.

(** X15. Every [add_cognate] call uses up a cognate identifier.  Unless the
    lexeme argument lacks [ID] or [Form], the cognate counter goes up by
    one: also when the caller supplies the ID, and also when the insertion
    raises or is suppressed. *)
Theorem add_cognate_counts_every_call ds lexeme kw st :
  lexeme_usable lexeme →
  _cognate_count (fst (add_cognate ds lexeme kw st)) = _cognate_count st + 1.
Proof.
  intros Hlex. destruct (add_cognate_run ds lexeme kw st Hlex) as (kw' & -> & _).
  by destruct (add_object_frame (cognate_class ds) kw'
                 (set_cognate_count (_cognate_count st + 1) st)) as (_ & -> & _).
Qed.

Lemma ID_is_id_key : "ID" ∈ id_keys.
Proof. compute_done. Qed.

Lemma Form_ID_not_id_key : "Form_ID" ∉ id_keys.
Proof. compute_done. Qed.

Lemma Form_not_id_key : "Form" ∉ id_keys.
Proof. compute_done. Qed.

Lemma prepare_field cls kw d k :
  keeps_field cls k → prepare cls kw = Ok d →
  (k ∉ id_keys → d !! k = kw !! k) ∧
  (k ∈ id_keys → ∀ v, kw !! k = Some v →
     d !! k = Some (if decide (v = VNone) then VNone else VStr (py_format v))).
Proof.
  intros Hkeep Hp. unfold prepare in Hp.
  destruct (instantiate cls kw) as [d0|e] eqn:Hi; [|done].
  destruct (stringify_identifiers_fields _ _ _ _ id_keys_NoDup Hp) as [Hout Hin].
  split.
  - intros Hk. by rewrite (Hout k Hk), (Hkeep kw d0 Hi).
  - intros Hk v Hv. specialize (Hin k Hk). rewrite (Hkeep kw d0 Hi), Hv in Hin.
    destruct (decide (v = VNone)); [done | by destruct Hin].
Qed.

(** X16. What a cognate record takes from the lexeme.  When [add_cognate]
    returns for a lexeme with [ID] and [Form], and the cognate class shows
    these fields as passed, the record's [Form_ID] and [Form] are the
    caller's own where given and the lexeme's [ID] and [Form] otherwise,
    and its [ID] is the text of the caller's ID, or of the new value of
    the cognate counter when the caller gave none. *)
Theorem add_cognate_defaults ds lex kw st st' d i f :
  lex ≠ ∅ →
  lex !! "ID" = Some i →
  lex !! "Form" = Some f →
  keeps_field (cognate_class ds) "ID" →
  keeps_field (cognate_class ds) "Form_ID" →
  keeps_field (cognate_class ds) "Form" →
  add_cognate ds (Some lex) kw st = (st', Ok d) →
  d !! "Form_ID" = Some (default i (kw !! "Form_ID")) ∧
  d !! "Form" = Some (default f (kw !! "Form")) ∧
  d !! "ID" = Some (match default (VInt (_cognate_count st + 1)) (kw !! "ID") with
                    | VNone => VNone
                    | v => VStr (py_format v)
                    end).
Proof.
  intros Hne Hi Hf HkID HkFid HkForm Hadd.
  destruct (add_cognate_run ds (Some lex) kw st) as (kw' & Hrun & HID & Hlex).
  { right. eauto. }
  destruct (Hlex lex i f eq_refl Hne Hi Hf) as [HFid HForm].
  rewrite Hrun in Hadd. apply add_object_ok in Hadd as [Hp _].
  destruct (prepare_field _ _ _ "Form_ID" HkFid Hp) as [H1 _].
  destruct (prepare_field _ _ _ "Form" HkForm Hp) as [H2 _].
  destruct (prepare_field _ _ _ "ID" HkID Hp) as [_ H3].
  rewrite (H1 Form_ID_not_id_key), (H2 Form_not_id_key).
  split; [done|]. split; [done|].
  rewrite (H3 ID_is_id_key _ HID).
  by destruct (default _ _).
Qed.

(** X17. Automatic cognate identifiers are stored.  When the caller gives
    no ID, the cognate class shows the ID as passed, and no identifier
    that the counter has yet to produce is in the index of the cognate
    table, a returning [add_cognate] appends its record under the text of
    the new counter value, and the same holds for the next call. *)
Theorem add_cognate_auto_id_stored ds lexeme kw st st' d :
  lexeme_usable lexeme →
  kw !! "ID" = None →
  keeps_field (cognate_class ds) "ID" →
  cognate_ids_unused st (cldf_table (cognate_class ds)) →
  add_cognate ds lexeme kw st = (st', Ok d) →
  d !! "ID" = Some (VStr (pretty (_cognate_count st + 1))) ∧
  table_of st' (cldf_table (cognate_class ds))
    = table_of st (cldf_table (cognate_class ds)) ++ [d] ∧
  cognate_ids_unused st' (cldf_table (cognate_class ds)).
Proof.
  intros Hlex Hnone Hkeep Hunused Hadd.
  destruct (add_cognate_run ds lexeme kw st Hlex) as (kw' & Hrun & HID & _).
  rewrite Hnone in HID. cbn [from_option id] in HID. rewrite Hrun in Hadd.
  set (n := _cognate_count st + 1) in *. set (T := cldf_table (cognate_class ds)) in *.
  pose proof (add_object_frame (cognate_class ds) kw' (set_cognate_count n st))
    as (_ & Hcount & _).
  rewrite Hadd in Hcount. cbn [fst _cognate_count set_cognate_count] in Hcount.
  apply add_object_ok in Hadd as [Hp Hcases]. fold T in Hcases.
  destruct (prepare_field _ _ _ "ID" Hkeep Hp) as [_ H3].
  specialize (H3 ID_is_id_key _ HID). cbn in H3.
  split; [done|].
  assert (VStr (pretty n) ∉ index_of st T) as Hfresh by (apply Hunused; lia).
  destruct Hcases as [(i0 & Hi0 & Hseen & _) | (_ & Htab & Hidx & _)].
  { rewrite H3 in Hi0. injection Hi0 as <-. done. }
  split; [done|].
  intros m Hm. rewrite (Hidx _ H3), Hcount in *.
  rewrite elem_of_union, elem_of_singleton. intros [Heq | Hin].
  - injection Heq as Heq. apply (inj pretty) in Heq. lia.
  - apply (Hunused m); [unfold n in Hm; lia | done].
Qed.

End CounterInvariants.

(** ** The concept assembler *)

Section ConceptClaims.

Context {Analysis Sound : Type}.
Implicit Types (st : @Dataset Analysis) (ds : @LexibankDataset Analysis Sound)
         (kw d : record) (int_text : string → result Z).

(** With a truthy Concepticon_ID that [int] accepts the lookup is made,
    and what it gives is the default of the gloss. *)
Lemma add_concept_with_catalog_id ds int_text kw st cid n :
  kw !! "Concepticon_ID" = Some cid →
  truthy cid = true →
  py_int int_text cid = Ok n →
  add_concept ds int_text kw st
  = _add_object (concept_class ds)
      (setdefault "Concepticon_Gloss" (cached_gloss (cached_glosses ds) n) kw) st.
Proof.
  intros Hcid Htruthy Hint.
  unfold add_concept, mbind, M_bind, lift, subscript, mret, M_ret.
  replace (kw_get kw "Concepticon_ID") with cid by (unfold kw_get; by rewrite Hcid).
  by rewrite Htruthy, Hcid, Hint.
Qed.

(** What [int] refuses ends the call before any lookup and any
    insertion. *)
Lemma add_concept_int_raises ds int_text kw st cid e :
  kw !! "Concepticon_ID" = Some cid →
  truthy cid = true →
  py_int int_text cid = Raise e →
  add_concept ds int_text kw st = (st, Raise e).
Proof.
  intros Hcid Htruthy Hint.
  unfold add_concept, mbind, M_bind, lift, subscript, mret, M_ret.
  replace (kw_get kw "Concepticon_ID") with cid by (unfold kw_get; by rewrite Hcid).
  by rewrite Htruthy, Hcid, Hint.
Qed.

(** Without a truthy Concepticon_ID no lookup takes place. *)
Lemma add_concept_without_catalog_id ds int_text kw st :
  truthy (kw_get kw "Concepticon_ID") = false →
  add_concept ds int_text kw st = _add_object (concept_class ds) kw st.
Proof.
  intros H. unfold add_concept, mbind, M_bind. by rewrite H.
Qed.

(** C8 as amended.  Take a call of [add_concept] with a Concepticon_ID
    and no Concepticon_Gloss, where [int] accepts the Concepticon_ID if it
    is truthy and the lookup has no entry for the number.  Then the call
    is the insertion of the row with the gloss set to [None] (of the row
    as it is, if the Concepticon_ID is falsy and nothing is looked up):
    the missing entry raises nothing.  A class that shows the gloss as
    passed gives it as [None] (no gloss at all for a falsy ID) in the
    record returned, and where the table is there and the identifier of
    the record is new, the record is appended to the table. *)
Theorem C8_missing_gloss_is_left_unset ds int_text kw st cid :
  kw !! "Concepticon_ID" = Some cid →
  kw !! "Concepticon_Gloss" = None →
  (truthy cid = true →
     ∃ n, py_int int_text cid = Ok n ∧ cached_glosses ds !! n = None) →
  let cls := concept_class ds in
  let kw' := if truthy cid then <["Concepticon_Gloss" := VNone]> kw else kw in
  add_concept ds int_text kw st = _add_object cls kw' st ∧
  (∀ st' d, add_concept ds int_text kw st = (st', Ok d) →
     keeps_field cls "Concepticon_Gloss" →
     d !! "Concepticon_Gloss" = if truthy cid then Some VNone else None) ∧
  (∀ d l idx, prepare cls kw' = Ok d →
     objects st !! cldf_table cls = Some l →
     _obj_index st !! cldf_table cls = Some idx →
     (∀ i, d !! "ID" = Some i → i ∉ idx) →
     ∃ st', add_concept ds int_text kw st = (st', Ok d) ∧
            table_of st' (cldf_table cls) = l ++ [d]).
Proof.
  intros Hcid Hgloss Hn cls kw'.
  assert (add_concept ds int_text kw st = _add_object cls kw' st) as Heq.
  { subst kw'. destruct (truthy cid) eqn:Ht.
    - destruct (Hn eq_refl) as (n & Hint & Hnone).
      rewrite (add_concept_with_catalog_id ds int_text kw st cid n) by done.
      unfold cached_gloss, setdefault. by rewrite Hnone, Hgloss.
    - apply add_concept_without_catalog_id. unfold kw_get. by rewrite Hcid. }
  split; [done|]. split.
  - intros st' d Hadd Hkeep. rewrite Heq in Hadd.
    apply add_object_ok in Hadd as [Hp _].
    destruct (prepare_field cls kw' d "Concepticon_Gloss" Hkeep Hp) as [Hout _].
    rewrite Hout by compute_done. subst kw'.
    destruct (truthy cid); [by rewrite lookup_insert_eq|done].
  - intros d l idx Hp Hl Hidx Hfresh. rewrite Heq, add_object_prepare, Hp.
    destruct (d !! "ID") as [i|] eqn:Hid.
    + rewrite Hidx, bool_decide_eq_true_2 by (by apply Hfresh). cbn zeta. rewrite Hl.
      eexists. split; [done|].
      by rewrite table_of_set_objects, lookup_insert_eq.
    + rewrite Hl. eexists. split; [done|].
      by rewrite table_of_set_objects, lookup_insert_eq.
Qed.

End ConceptClaims.

(** C8 as stated fails for a Concepticon_ID that [int] refuses: the row
    has a Concepticon_ID and no gloss, the lookup has no entry at all, and
    the call ends in the [ValueError] of [int('abc')]; the concept table
    stays empty. *)
Lemma C8_unnumbered_catalog_id_aborts :
  let r := add_concept demo decimal_int unnumbered_concept_row (__init__ demo) in
  (unnumbered_concept_row !! "Concepticon_ID",
   unnumbered_concept_row !! "Concepticon_Gloss",
   cached_glosses demo, r, table_of (fst r) "ParameterTable")
  = (Some (VStr "abc"), None, ∅,
     (__init__ demo,
      Raise (ValueError "invalid literal for int() with base 10: 'abc'")),
     []).
Proof. vm_compute. reflexivity. Qed.

Lemma C8_witness :
  let cls := concept_class demo in
  let kw' := <["Concepticon_Gloss" := VNone]> concept_row in
  let call := add_concept demo decimal_int concept_row (__init__ demo) in
  call = _add_object cls kw' (__init__ demo) ∧
  (∀ st' d, call = (st', Ok d) →
     keeps_field cls "Concepticon_Gloss" →
     d !! "Concepticon_Gloss" = Some VNone) ∧
  (∀ d l idx, prepare cls kw' = Ok d →
     objects (__init__ demo) !! cldf_table cls = Some l →
     _obj_index (__init__ demo) !! cldf_table cls = Some idx →
     (∀ i, d !! "ID" = Some i → i ∉ idx) →
     ∃ st', call = (st', Ok d) ∧ table_of st' (cldf_table cls) = l ++ [d]).
Proof.
  apply (C8_missing_gloss_is_left_unset demo decimal_int concept_row (__init__ demo)
           (VStr "1277")).
  - vm_compute. reflexivity.
  - vm_compute. reflexivity.
  - intros _. exists 1277. split; vm_compute; reflexivity.
Defined.

(** A Concepticon_ID that the catalog does not know: the concept is
    stored, with [None] for its gloss. *)
Example unknown_catalog_id_is_stored :
  let r := add_concept demo decimal_int concept_row (__init__ demo) in
  (snd r, table_of (fst r) "ParameterTable")
  = (Ok (<["Concepticon_Gloss" := VNone]> concept_row),
     [ <["Concepticon_Gloss" := VNone]> concept_row ]).
Proof. vm_compute. reflexivity. Qed.

(** With an entry in the catalog the gloss is filled in and the concept
    is stored. *)
Example gloss_is_backfilled :
  let ds := demo_dataset None (λ _ a, (a, Ok ([], []))) {[ 1277 := VStr "HAND" ]} in
  table_of (fst (add_concept ds decimal_int concept_row (__init__ ds))) "ParameterTable"
  = [ <["Concepticon_Gloss" := VStr "HAND"]> concept_row ].
Proof. vm_compute. reflexivity. Qed.

(** ** The language assembler and [get_variety_id] *)

Section LanguageFacts.

Context {Analysis Sound : Type}.
Implicit Types (st s : @Dataset Analysis) (ds : @LexibankDataset Analysis Sound)
         (kw d : record).

Lemma kw_get_truthy kw k :
  truthy (kw_get kw k) = true → kw !! k = Some (kw_get kw k).
Proof. unfold kw_get. by destruct (kw !! k). Qed.

Lemma add_languages_loop_ok ds kws : ∀ ids0 st st' ids,
  add_languages_loop ds default_id_factory kws ids0 st = (st', Ok ids) →
  ids = list_to_set (omap (λ kw : record, kw !! "ID") kws) ∪ ids0 ∧
  st' = insert_all (map (λ kw, (language_class ds, with_glottocode ds kw)) kws) st.
Proof.
  induction kws as [|kw kws IH]; intros ids0 st st' ids; cbn [add_languages_loop].
  - intros [= <- <-]. split; [|done]. cbn. by rewrite (left_id_L ∅ (∪)).
  - unfold mbind at 1. unfold M_bind at 1.
    assert (∃ r, (if (negb (truthy (kw_get kw "Glottocode"))
                      && truthy (kw_get kw "ISO639P3code"))%bool
                  then
                    iso ← lift (subscript kw "ISO639P3code");
                    g ← lift (dict_get (glottocode_by_iso ds) iso);
                    mret (<["Glottocode" := g]> kw)
                  else mret kw) st = (st, r) ∧
                 (∀ kw1, r = Ok kw1 → kw1 = with_glottocode ds kw)) as (r & -> & Hr).
    { unfold with_glottocode.
      destruct (negb (truthy (kw_get kw "Glottocode"))
                && truthy (kw_get kw "ISO639P3code"))%bool eqn:Hcond.
      - apply andb_true_iff in Hcond as [_ Hiso].
        unfold mbind, M_bind, lift, subscript, dict_get, mret, M_ret.
        rewrite (kw_get_truthy _ _ Hiso).
        destruct (hashable (kw_get kw "ISO639P3code")); eexists; split; try done.
        by intros kw1 [= <-].
      - eexists. split; [done|]. by intros kw1 [= <-]. }
    destruct r as [kw1|e]; [|done]. rewrite (Hr kw1 eq_refl). clear Hr.
    unfold mbind at 1. unfold M_bind at 1. unfold lift, default_id_factory, subscript.
    destruct (with_glottocode ds kw !! "ID") as [i|] eqn:Hi; [|done].
    rewrite (insert_id _ _ _ Hi).
    unfold mbind at 1. unfold M_bind at 1.
    destruct (hashable i); [|done]. unfold mret at 1. unfold M_ret at 1.
    unfold mbind at 1. unfold M_bind at 1. unfold add_language.
    destruct (_add_object (language_class ds) (with_glottocode ds kw) st)
      as [s1 [d|e]] eqn:Hadd; [|done].
    intros Hloop. destruct (IH _ _ _ _ Hloop) as [-> ->].
    cbn [map insert_all]. rewrite Hadd. cbn [fst]. split; [|done].
    assert (kw !! "ID" = Some i) as Hkw.
    { unfold with_glottocode in Hi. destruct (_ && _)%bool; [|done].
      by rewrite lookup_insert_ne in Hi. }
    change (omap ?f (kw :: kws))
      with (match f kw with Some y => y :: omap f kws | None => omap f kws end).
    cbn beta. rewrite Hkw, list_to_set_cons.
    rewrite (assoc_L (∪)). f_equal. apply (comm_L (∪)).
Qed.

(** X18. [add_languages] with the default identifier function.  When the
    call returns, the set it returns holds the IDs of all language
    descriptors, also of those whose record was suppressed as a
    duplicate, and the state is the one reached by inserting, in order,
    each descriptor with its Glottocode looked up where it was missing: a
    Glottocode that is there is kept, an ISO code without a Glottocode
    gives [None]. *)
Theorem add_languages_default_ids ds st st' ids :
  add_languages ds default_id_factory st = (st', Ok ids) →
  ids = list_to_set (omap (λ kw : record, kw !! "ID") (languages ds)) ∧
  st' = insert_all (map (λ kw, (language_class ds, with_glottocode ds kw)) (languages ds))
                   st.
Proof.
  intros H. destruct (add_languages_loop_ok ds _ _ _ _ _ H) as [-> ->].
  split; [|done]. by rewrite (right_id_L ∅ (∪)).
Qed.

End LanguageFacts.

(** X19. [get_variety_id] answers the first truthy one of
    [Language_local_ID], [Language_name] and [Language_ID]; it is falsy
    only when all three are missing or falsy, and then it is the value of
    [Language_ID] as it is, or [None] when that is missing. *)
Theorem get_variety_id_first_truthy (row : record) :
  truthy (get_variety_id row)
  = (truthy (kw_get row "Language_local_ID") || truthy (kw_get row "Language_name")
     || truthy (kw_get row "Language_ID"))%bool ∧
  get_variety_id row
  = (if truthy (kw_get row "Language_local_ID") then kw_get row "Language_local_ID"
     else if truthy (kw_get row "Language_name") then kw_get row "Language_name"
     else kw_get row "Language_ID").
Proof.
  unfold get_variety_id.
  destruct (truthy (kw_get row "Language_local_ID")) eqn:Hl; cbn [negb orb].
  - by rewrite Hl.
  - destruct (truthy (kw_get row "Language_name")) eqn:Hn; cbn [negb orb].
    + by rewrite Hn.
    + done.
Qed.

(** ** The extra properties on sample inputs *)

Lemma malformed_identifier_refused_witness :
  ∃ msg, _add_object (language_class demo) {[ "ID" := VStr "bad id!" ]} (__init__ demo)
         = (__init__ demo, Raise (ValueError msg)).
Proof.
  apply (malformed_identifier_refused (__init__ demo) (language_class demo)
           {[ "ID" := VStr "bad id!" ]} {[ "ID" := VStr "bad id!" ]} "ID"
           (VStr "bad id!")).
  - reflexivity.
  - vm_compute. left.
  - vm_compute. reflexivity.
  - intros H. discriminate H.
  - reflexivity.
Defined.

Lemma inserted_identifiers_are_text_witness :
  ∃ d0, instantiate (cognate_class demo) cognate_row = Ok d0 ∧
    (∀ k, k ∈ id_keys → identifier_field (cognate_record !! k)) ∧
    (∀ k v, k ∈ id_keys → d0 !! k = Some v → v ≠ VNone →
       cognate_record !! k = Some (VStr (py_format v))) ∧
    (∀ k, k ∉ id_keys → cognate_record !! k = d0 !! k).
Proof.
  apply (inserted_identifiers_are_text (__init__ demo) (cognate_class demo) cognate_row
           (fst (_add_object (cognate_class demo) cognate_row (__init__ demo)))).
  vm_compute. reflexivity.
Defined.

Lemma session_insert_outcome_witness :
  snd (_add_object (language_class demo) later_record (session_store demo later_calls))
  = prepare (language_class demo) later_record.
Proof.
  apply (session_insert_outcome demo later_calls (language_class demo) later_record).
  vm_compute. right. left.
Defined.

Lemma reinsert_returned_record_witness :
  let st' := fst (_add_object (language_class demo) first_record (__init__ demo)) in
  _add_object (language_class demo) first_record st' = (st', Ok first_record).
Proof.
  apply (reinsert_returned_record (__init__ demo) (language_class demo) first_record
           _ first_record (language_class demo)).
  - vm_compute. reflexivity.
  - reflexivity.
  - reflexivity.
  - vm_compute. eexists. reflexivity.
Defined.

Lemma exit_failure_writes_nothing_witness :
  ∃ st1 e, __exit__ broken_store = (st1, Raise e) ∧ (e = KeyError ∨ e = TypeError) ∧
           written st1 = written broken_store.
Proof.
  apply (exit_failure_writes_nothing broken_store). vm_compute. reflexivity.
Defined.

Lemma pruned_records_stay_out_witness :
  let st' := fst (__exit__ sample_store) in
  _obj_index st' = _obj_index sample_store ∧
  _add_object (language_class demo) {[ "ID" := VStr "L2" ]} st'
  = (st', Ok {[ "ID" := VStr "L2" ]}).
Proof.
  apply (pruned_records_stay_out sample_store _ (language_class demo)
           {[ "ID" := VStr "L2" ]} {[ "ID" := VStr "L2" ]} (VStr "L2")).
  - vm_compute. reflexivity.
  - vm_compute. reflexivity.
  - vm_compute. reflexivity.
  - vm_compute. reflexivity.
Defined.

Lemma exit_tables_witness :
  let st' := fst (__exit__ sample_store) in
  (∀ t, t ∈ ["FormTable"; "CognateTable"; "LanguageTable"; "ParameterTable"] →
        is_Some (objects st' !! t)) ∧
  (∀ t, t ≠ "LanguageTable" → t ≠ "ParameterTable" →
        table_of st' t = table_of sample_store t) ∧
  written st' = written sample_store ++ [objects st'].
Proof.
  apply (exit_tables sample_store). vm_compute. reflexivity.
Defined.

Lemma add_lexemes_other_languages_witness :
  tr_analyses (fst (add_lexemes demo_analysed (demo_row "unk") (__init__ demo_analysed)))
    !! VStr "L2"
  = tr_analyses (__init__ demo_analysed) !! VStr "L2".
Proof.
  apply (add_lexemes_other_languages demo_analysed (demo_row "unk")
           (__init__ demo_analysed) (VStr "L2")).
  vm_compute. intros H. discriminate H.
Defined.

Lemma add_lexemes_without_segments_witness :
  let st' := fst (add_lexemes demo walk_row (__init__ demo)) in
  tr_analyses st' = tr_analyses (__init__ demo) ∧
  tr_bad_words st' = tr_bad_words (__init__ demo) ∧
  tr_invalid_words st' = tr_invalid_words (__init__ demo) ∧
  printed st' = printed (__init__ demo).
Proof.
  apply (add_lexemes_without_segments demo walk_row (__init__ demo)).
  - reflexivity.
  - vm_compute. reflexivity.
Defined.

Lemma lexeme_ids_stay_unused_witness :
  lexeme_ids_unused (add_lexemes_rows demo [walk_row; demo_row "ma"] (__init__ demo))
                    "FormTable".
Proof.
  apply (lexeme_ids_stay_unused demo [walk_row; demo_row "ma"]).
  apply plain_class_keeps.
Defined.

Lemma add_cognate_counts_every_call_witness :
  _cognate_count (fst (add_cognate demo None cognate_row (__init__ demo)))
  = _cognate_count (__init__ demo) + 1.
Proof.
  apply (add_cognate_counts_every_call demo None cognate_row (__init__ demo)).
  exact I.
Defined.

Lemma add_cognate_defaults_witness :
  let lex := lexeme_kw demo walk_row "to go" 1 in
  let d : record := {[ "ID" := VStr "1"; "Cognateset_ID" := VStr "s1";
                       "Form_ID" := VStr "1"; "Form" := VStr "to go" ]} in
  d !! "Form_ID" = Some (default (VStr "1") (judgment_row !! "Form_ID")) ∧
  d !! "Form" = Some (default (VStr "to go") (judgment_row !! "Form")) ∧
  d !! "ID" = Some (match default (VInt (_cognate_count (__init__ demo) + 1))
                            (judgment_row !! "ID") with
                    | VNone => VNone
                    | v => VStr (py_format v)
                    end).
Proof.
  apply (add_cognate_defaults demo (lexeme_kw demo walk_row "to go" 1) judgment_row
           (__init__ demo)
           (fst (add_cognate demo (Some (lexeme_kw demo walk_row "to go" 1)) judgment_row
                   (__init__ demo)))
           _ (VStr "1") (VStr "to go")).
  - intros H. assert (lexeme_kw demo walk_row "to go" 1 !! "ID" = (∅ : record) !! "ID")
      as H' by (by rewrite H).
    vm_compute in H'. discriminate H'.
  - vm_compute. reflexivity.
  - vm_compute. reflexivity.
  - apply plain_class_keeps.
  - apply plain_class_keeps.
  - apply plain_class_keeps.
  - vm_compute. reflexivity.
Defined.

Lemma init_cognate_ids_unused {Analysis Sound : Type}
    (ds : @LexibankDataset Analysis Sound) t :
  cognate_ids_unused (__init__ ds) t.
Proof.
  intros n _. unfold index_of. cbn [__init__ _obj_index].
  rewrite init_tables_default. apply not_elem_of_empty.
Qed.

Lemma add_cognate_auto_id_stored_witness :
  let st' := fst (add_cognate demo None judgment_row (__init__ demo)) in
  let d : record := {[ "ID" := VStr "1"; "Cognateset_ID" := VStr "s1" ]} in
  d !! "ID" = Some (VStr (pretty (_cognate_count (__init__ demo) + 1))) ∧
  table_of st' "CognateTable" = table_of (__init__ demo) "CognateTable" ++ [d] ∧
  cognate_ids_unused st' "CognateTable".
Proof.
  apply (add_cognate_auto_id_stored demo None judgment_row (__init__ demo)).
  - exact I.
  - vm_compute. reflexivity.
  - apply plain_class_keeps.
  - apply init_cognate_ids_unused.
  - vm_compute. reflexivity.
Defined.

Lemma add_languages_default_ids_witness :
  let r := add_languages language_demo default_id_factory (__init__ language_demo) in
  ({[ VStr "eng"; VStr "deu" ]} : gset value)
  = list_to_set (omap (λ kw : record, kw !! "ID") (languages language_demo)) ∧
  fst r = insert_all (map (λ kw, (language_class language_demo,
                                   with_glottocode language_demo kw))
                          (languages language_demo))
                     (__init__ language_demo).
Proof.
  apply (add_languages_default_ids language_demo (__init__ language_demo)).
  vm_compute. reflexivity.
Defined.

(** The scenario of the specification: the language with ISO code [eng]
    and no Glottocode is stored with the Glottocode found for [eng]; the
    language that brings its own Glottocode keeps it. *)
Example glottocode_is_backfilled :
  table_of (fst (add_languages language_demo default_id_factory (__init__ language_demo)))
           "LanguageTable"
  = [ {[ "ID" := VStr "eng"; "ISO639P3code" := VStr "eng";
         "Glottocode" := VStr "stan1293" ]};
      {[ "ID" := VStr "deu"; "ISO639P3code" := VStr "deu";
         "Glottocode" := VStr "stan1295" ]} ].
Proof. vm_compute. reflexivity. Qed.
